(** * d2l-quiz: the markdown-to-CSV quiz converter [gen_quiz_csv.py]

    A shallow embedding of the parsing and translation core of
    [gen_quiz_csv.py] (block splitter [parse_quiz_file], question parser
    [parse_question], markup translator [format_question_text]) and the
    properties its specification states about them.

    Text.  A Python [str] is modelled as a list of characters, a character
    being a code point below 256 (Rocq's [ascii]); the character classes of
    [str.strip] and of the [re] module ([\s], [\w], [.]) are the ones Python
    gives to these code points.

    Patterns.  The program drives its line classification with regular
    expressions.  They are kept as data ([regex]), transcribed from the
    source one construct at a time, and run by a backtracking matcher with
    the priorities of Python's [re]: alternatives left to right, greedy
    repetition longest first, lazy repetition shortest first. *)

From Stdlib Require Import Ascii String List Bool Arith ZArith Lia.
From Stdlib Require Import DecimalString DecimalNat Sorted.
Import ListNotations.

Local Open Scope list_scope.
Local Open Scope bool_scope.

(* ================================================================== *)
(** ** Strings *)

Definition str := list ascii.

(** A string literal of the source. *)
Definition lit (s : string) : str := list_ascii_of_string s.

Definition chr_eqb (a b : ascii) : bool := Ascii.eqb a b.

Fixpoint str_eqb (a b : str) : bool :=
  match a, b with
  | [], [] => true
  | x :: a', y :: b' => chr_eqb x y && str_eqb a' b'
  | _, _ => false
  end.

Definition code (c : ascii) : nat := nat_of_ascii c.

Definition between (lo hi : nat) (c : ascii) : bool :=
  (lo <=? code c) && (code c <=? hi).

(** [str.isspace] on one character, which is also [\s] of [re]: the ASCII
    white space 9-13, 28-32, and among the code points 128-255 the next-line
    control 133 and the no-break space 160. *)
Definition is_space (c : ascii) : bool :=
  between 9 13 c || between 28 32 c || (code c =? 133) || (code c =? 160).

(** [\w] of [re] on [str] patterns: an alphanumeric character or the
    underscore.  Below 256 the alphanumerics are the ASCII digits and
    letters, the ordinal indicators 170 and 186, the superscripts 178, 179
    and 185, the micro sign 181, the fractions 188-190 and the letters
    192-255 except the signs 215 and 247. *)
Definition is_word (c : ascii) : bool :=
  between 48 57 c || between 65 90 c || between 97 122 c || (code c =? 95)
  || (code c =? 170) || (code c =? 178) || (code c =? 179) || (code c =? 181)
  || (code c =? 185) || (code c =? 186) || between 188 190 c
  || between 192 214 c || between 216 246 c || between 248 255 c.

Definition nl : ascii := ascii_of_nat 10.

(** [.] without DOTALL: anything but a newline. *)
Definition is_dot (c : ascii) : bool := negb (chr_eqb c nl).

(** [.] with DOTALL. *)
Definition is_any (_ : ascii) : bool := true.

(** [[A-F]]. *)
Definition is_AF (c : ascii) : bool := between 65 70 c.

Definition is_chr (a : ascii) (c : ascii) : bool := chr_eqb c a.
Definition not_chr (a : ascii) (c : ascii) : bool := negb (chr_eqb c a).

(** [s.lstrip()], [s.rstrip()] and [s.strip()]. *)
Fixpoint lstrip (s : str) : str :=
  match s with
  | c :: s' => if is_space c then lstrip s' else s
  | [] => []
  end.

Definition rstrip (s : str) : str := rev (lstrip (rev s)).

Definition strip (s : str) : str := rstrip (lstrip s).

(** [s.startswith(p)]. *)
Fixpoint startswith (p s : str) : bool :=
  match p, s with
  | [], _ => true
  | x :: p', y :: s' => chr_eqb x y && startswith p' s'
  | _ :: _, [] => false
  end.

(** [p in s] on strings: [p] occurs in [s] as a substring. *)
Fixpoint contains (p s : str) : bool :=
  startswith p s ||
  match s with
  | _ :: s' => contains p s'
  | [] => false
  end.

(** [sep.join(parts)]. *)
Fixpoint join (sep : str) (parts : list str) : str :=
  match parts with
  | [] => []
  | [p] => p
  | p :: rest => p ++ sep ++ join sep rest
  end.

(** [s.split("\n")]: the pieces between newlines, at least one piece. *)
Fixpoint split_nl_go (cur : str) (s : str) : list str :=
  match s with
  | [] => [rev cur]
  | c :: s' => if chr_eqb c nl then rev cur :: split_nl_go [] s'
               else split_nl_go (c :: cur) s'
  end.

Definition split_nl (s : str) : list str := split_nl_go [] s.

(** [s.replace(old, new)] for a non-empty [old] (every [old] of the program
    is a literal of at least one character): occurrences are taken leftmost
    first and do not overlap; [skip] counts the characters of an occurrence
    still to be passed over. *)
Fixpoint replace_go (old new : str) (skip : nat) (s : str) : str :=
  match s with
  | [] => []
  | c :: s' =>
      match skip with
      | S k => replace_go old new k s'
      | O => if startswith old s
             then new ++ replace_go old new (length old - 1) s'
             else c :: replace_go old new 0 s'
      end
  end.

Definition replace (old new s : str) : str := replace_go old new 0 s.

(** [str(n)] for a natural number, as the f-strings of the source print it. *)
Definition str_of_nat (n : nat) : str :=
  lit (NilZero.string_of_uint (Nat.to_uint n)).

(* ================================================================== *)
(** ** Regular expressions as the [re] module runs them *)

(** The constructs the program's patterns use.  Repetition is only ever
    applied to a single character class in the source, so [Star] and
    [StarLazy] take a class. *)
Inductive regex : Type :=
| Eps
| Chr (p : ascii -> bool)       (* one character of a class *)
| Cat (r1 r2 : regex)           (* r1 r2 *)
| Alt (r1 r2 : regex)           (* r1|r2 *)
| Star (p : ascii -> bool)      (* c*, greedy *)
| StarLazy (p : ascii -> bool)  (* c*?, lazy *)
| Grp (n : nat) (r : regex)     (* capturing group number n *)
| Bol                           (* ^ *)
| Eol                           (* $ without MULTILINE *)
| Wordb.                        (* \b *)

(** c+ and r? (both greedy), a literal, a sequence. *)
Definition Plus (p : ascii -> bool) : regex := Cat (Chr p) (Star p).
Definition Opt (r : regex) : regex := Alt r Eps.

Fixpoint Lit (s : str) : regex :=
  match s with
  | [] => Eps
  | c :: s' => Cat (Chr (is_chr c)) (Lit s')
  end.

Fixpoint Seq (rs : list regex) : regex :=
  match rs with
  | [] => Eps
  | r :: rs' => Cat r (Seq rs')
  end.

(** A matcher position: the text already passed (nearest character first),
    the text ahead, and the groups captured so far. *)
Record mstate : Type := MState {
  bef : str;
  aft : str;
  caps : list (nat * str)
}.

(** The text between two positions of one run, the second further right. *)
Definition consumed (s s' : mstate) : str :=
  rev (firstn (length (bef s') - length (bef s)) (bef s')).

(** [$]: at the end of the text, or just before a newline that ends it. *)
Definition at_eol (s : mstate) : bool :=
  match aft s with
  | [] => true
  | [c] => chr_eqb c nl
  | _ => false
  end.

(** [\b]: exactly one of the two neighbouring characters is a word
    character (a missing neighbour counts as none). *)
Definition at_wordb (s : mstate) : bool :=
  xorb (match bef s with c :: _ => is_word c | [] => false end)
       (match aft s with c :: _ => is_word c | [] => false end).

Section Run.
Context {A : Type}.

(** Greedy repetition of a class: take one more character first, and fall
    back to stopping here when what follows fails. *)
Fixpoint star_greedy (p : ascii -> bool) (k : mstate -> option A)
    (cs : list (nat * str)) (b a : str) : option A :=
  match a with
  | c :: a' =>
      if p c then
        match star_greedy p k cs (c :: b) a' with
        | Some x => Some x
        | None => k (MState b a cs)
        end
      else k (MState b a cs)
  | [] => k (MState b [] cs)
  end.

(** Lazy repetition of a class: try to stop here first. *)
Fixpoint star_lazy (p : ascii -> bool) (k : mstate -> option A)
    (cs : list (nat * str)) (b a : str) : option A :=
  match k (MState b a cs) with
  | Some x => Some x
  | None =>
      match a with
      | c :: a' => if p c then star_lazy p k cs (c :: b) a' else None
      | [] => None
      end
  end.

(** [run r s k]: match [r] at [s] and hand the position reached to the
    continuation [k]; the first way of matching that [k] accepts wins. *)
Fixpoint run (r : regex) (s : mstate) (k : mstate -> option A) : option A :=
  match r with
  | Eps => k s
  | Chr p =>
      match aft s with
      | c :: a' => if p c then k (MState (c :: bef s) a' (caps s)) else None
      | [] => None
      end
  | Cat r1 r2 => run r1 s (fun s' => run r2 s' k)
  | Alt r1 r2 =>
      match run r1 s k with
      | Some x => Some x
      | None => run r2 s k
      end
  | Star p => star_greedy p k (caps s) (bef s) (aft s)
  | StarLazy p => star_lazy p k (caps s) (bef s) (aft s)
  | Grp n r' =>
      run r' s (fun s' =>
        k (MState (bef s') (aft s') ((n, consumed s s') :: caps s')))
  | Bol => match bef s with [] => k s | _ :: _ => None end
  | Eol => if at_eol s then k s else None
  | Wordb => if at_wordb s then k s else None
  end.
End Run.

(** [m.group(n)] of a successful match ([n >= 1]); a group that took no
    part in the match reads as the empty string here. *)
Fixpoint group (n : nat) (cs : list (nat * str)) : str :=
  match cs with
  | [] => []
  | (m, g) :: cs' => if m =? n then g else group n cs'
  end.

(** One attempt to match [r] at a position: the position reached. *)
Definition exec (r : regex) (b a : str) : option mstate :=
  run r (MState b a []) (fun s => Some s).

(** [re.match(r, s)]: an attempt at the start of [s] only. *)
Definition re_match (r : regex) (s : str) : option (list (nat * str)) :=
  match exec r [] s with
  | Some s' => Some (caps s')
  | None => None
  end.

(** The number of characters a match consumed. *)
Definition span (b : str) (s' : mstate) : nat := length (bef s') - length b.

(** [re.findall(r, s)] for a pattern with one group: the group of every
    match, matches taken leftmost first and not overlapping.  None of the
    program's patterns can match the empty string, so the special rules of
    [re] for empty matches never apply; an attempt that consumes nothing
    counts as a failed attempt.  [skip] counts the characters of the last
    match still to be passed over. *)
Fixpoint findall_go (r : regex) (b a : str) (skip : nat) : list str :=
  match a with
  | [] => []
  | c :: a' =>
      match skip with
      | S k => findall_go r (c :: b) a' k
      | O =>
          match exec r b a with
          | Some s' =>
              match span b s' with
              | O => findall_go r (c :: b) a' 0
              | S k => group 1 (caps s') :: findall_go r (c :: b) a' k
              end
          | None => findall_go r (c :: b) a' 0
          end
      end
  end.

Definition findall (r : regex) (s : str) : list str := findall_go r [] s 0.

(** [re.sub(r, repl, s)] with a callable [repl] that may keep state of its
    own (the closure of the source appends to a list): [repl] receives its
    state and the groups of the match and returns the new state and the
    replacement text.  Same scanning as [findall]. *)
Section Sub.
Context {St : Type}.
Variable r : regex.
Variable repl : St -> list (nat * str) -> St * str.

Fixpoint sub_go (st : St) (b a : str) (skip : nat) : St * str :=
  match a with
  | [] => (st, [])
  | c :: a' =>
      match skip with
      | S k => sub_go st (c :: b) a' k
      | O =>
          match exec r b a with
          | Some s' =>
              match span b s' with
              | O => let '(st', out) := sub_go st (c :: b) a' 0 in
                     (st', c :: out)
              | S k => let '(st1, t) := repl st (caps s') in
                       let '(st', out) := sub_go st1 (c :: b) a' k in
                       (st', t ++ out)
              end
          | None => let '(st', out) := sub_go st (c :: b) a' 0 in
                    (st', c :: out)
          end
      end
  end.

Definition re_sub_st (st : St) (s : str) : St * str := sub_go st [] s 0.
End Sub.

(** [re.sub(r, repl, s)] with a stateless replacement. *)
Definition re_sub (r : regex) (repl : list (nat * str) -> str) (s : str) : str :=
  snd (re_sub_st r (fun (u : unit) cs => (u, repl cs)) tt s).

(* ================================================================== *)
(** ** The patterns of [gen_quiz_csv.py] *)

Local Open Scope char_scope.

(** [r"^##\s*(.+)$"] *)
Definition re_header : regex :=
  Seq [Bol; Lit (lit "##"); Star is_space; Grp 1 (Plus is_dot); Eol].

(** [r"^>\s*Correct Answers?:\s*(.+)$"] *)
Definition re_correct : regex :=
  Seq [Bol; Lit (lit ">"); Star is_space; Lit (lit "Correct Answer");
       Opt (Chr (is_chr "s")); Lit (lit ":"); Star is_space;
       Grp 1 (Plus is_dot); Eol].

(** [r"\b([A-F])(?:\.|,|\s|$)"] *)
Definition re_letter : regex :=
  Seq [Wordb; Grp 1 (Chr is_AF);
       Alt (Chr (is_chr ".")) (Alt (Chr (is_chr ",")) (Alt (Chr is_space) Eol))].

(** [r"^>\s*Overall Feedback:\s*(.+)$"] *)
Definition re_feedback : regex :=
  Seq [Bol; Lit (lit ">"); Star is_space; Lit (lit "Overall Feedback:");
       Star is_space; Grp 1 (Plus is_dot); Eol].

(** [r"^([A-F])\.\s*(.+)$"] *)
Definition re_option : regex :=
  Seq [Bol; Grp 1 (Chr is_AF); Lit (lit "."); Star is_space;
       Grp 2 (Plus is_dot); Eol].

(** [r"```(?:\w+)?\n?(.*?)```"] with [re.DOTALL] *)
Definition re_fence : regex :=
  Seq [Lit (lit "```"); Opt (Plus is_word); Opt (Chr (is_chr nl));
       Grp 1 (StarLazy is_any); Lit (lit "```")].

(** [r"\*\*([^*]+)\*\*"] *)
Definition re_bold : regex :=
  Seq [Lit (lit "**"); Grp 1 (Plus (not_chr "*")); Lit (lit "**")].

(** [r"`([^`]+)`"] *)
Definition re_code : regex :=
  Seq [Lit (lit "`"); Grp 1 (Plus (not_chr "`")); Lit (lit "`")].

Local Close Scope char_scope.

(* ================================================================== *)
(** ** The data model: the dictionaries [parse_question] builds *)

(** [{"letter": ..., "text": ..., "correct": ...}] *)
Module Opt.
Record t : Type := Make {
  letter : str;
  text : str;
  correct : bool
}.
End Opt.

(** The value of the ["type"] key. *)
Inductive qtype : Type := SA | MS | MC.

Definition qtype_eqb (a b : qtype) : bool :=
  match a, b with
  | SA, SA | MS, MS | MC, MC => true
  | _, _ => false
  end.

(** The dictionary [parse_question] returns. *)
Module Q.
Record t : Type := Make {
  num : Z;
  type : qtype;
  title : str;
  text : str;
  options : list Opt.t;
  correct_explanation : str;
  short_answer : str
}.
End Q.

(* ================================================================== *)
(** ** [parse_question] *)

(** The local variables of [parse_question] that its loop updates. *)
Record pstate : Type := PState {
  question_text_lines : list str;
  options : list Opt.t;
  correct_letters : list str;
  correct_explanation : str;
  short_answer_text : str;
  title : str;
  is_short_answer : bool;
  in_code_block : bool;
  code_block_content : list str
}.

Definition pstate0 : pstate := PState [] [] [] [] [] [] false false [].

Definition set_text_lines (v : list str) (st : pstate) : pstate :=
  PState v (options st) (correct_letters st) (correct_explanation st)
    (short_answer_text st) (title st) (is_short_answer st) (in_code_block st)
    (code_block_content st).

Definition set_options (v : list Opt.t) (st : pstate) : pstate :=
  PState (question_text_lines st) v (correct_letters st) (correct_explanation st)
    (short_answer_text st) (title st) (is_short_answer st) (in_code_block st)
    (code_block_content st).

Definition set_correct_letters (v : list str) (st : pstate) : pstate :=
  PState (question_text_lines st) (options st) v (correct_explanation st)
    (short_answer_text st) (title st) (is_short_answer st) (in_code_block st)
    (code_block_content st).

Definition set_correct_explanation (v : str) (st : pstate) : pstate :=
  PState (question_text_lines st) (options st) (correct_letters st) v
    (short_answer_text st) (title st) (is_short_answer st) (in_code_block st)
    (code_block_content st).

Definition set_short_answer_text (v : str) (st : pstate) : pstate :=
  PState (question_text_lines st) (options st) (correct_letters st)
    (correct_explanation st) v (title st) (is_short_answer st)
    (in_code_block st) (code_block_content st).

Definition set_title (v : str) (st : pstate) : pstate :=
  PState (question_text_lines st) (options st) (correct_letters st)
    (correct_explanation st) (short_answer_text st) v (is_short_answer st)
    (in_code_block st) (code_block_content st).

Definition set_is_short_answer (v : bool) (st : pstate) : pstate :=
  PState (question_text_lines st) (options st) (correct_letters st)
    (correct_explanation st) (short_answer_text st) (title st) v
    (in_code_block st) (code_block_content st).

Definition set_code (flag : bool) (buf : list str) (st : pstate) : pstate :=
  PState (question_text_lines st) (options st) (correct_letters st)
    (correct_explanation st) (short_answer_text st) (title st)
    (is_short_answer st) flag buf.

Definition is_empty {A : Type} (l : list A) : bool :=
  match l with [] => true | _ :: _ => false end.

(** The branch for a correct-answer line, on the stripped remainder. *)
Definition on_correct (answer_text : str) (st : pstate) : pstate :=
  let letter_match := findall re_letter answer_text in
  let st := set_correct_letters letter_match st in
  if is_empty letter_match then set_short_answer_text answer_text st else st.

(** The body of [for line in lines], one branch per [if ...: continue]. *)
Definition step (st : pstate) (line : str) : pstate :=
  let stripped := strip line in
  if startswith (lit "```") stripped then
    if in_code_block st then
      let block := code_block_content st ++ [line] in
      set_code false []
        (set_text_lines (question_text_lines st ++ [join [nl] block]) st)
    else set_code true [line] st
  else if in_code_block st then
    set_code true (code_block_content st ++ [line]) st
  else if is_empty stripped || str_eqb stripped (lit "---") then st
  else
    match re_match re_header stripped with
    | Some m => set_title (strip (group 1 m)) st
    | None =>
    if contains (lit "**Short Answer Question:**") stripped
       || contains (lit "Short Answer Question") stripped
    then set_is_short_answer true st
    else
    match re_match re_correct stripped with
    | Some m => on_correct (strip (group 1 m)) st
    | None =>
    match re_match re_feedback stripped with
    | Some m => set_correct_explanation (strip (group 1 m)) st
    | None =>
    match re_match re_option stripped with
    | Some m =>
        set_options
          (options st ++ [Opt.Make (group 1 m) (strip (group 2 m)) false]) st
    | None =>
    if startswith (lit "*Reference:") stripped
       || startswith (lit "*Note:") stripped
    then st
    else set_text_lines (question_text_lines st ++ [line]) st
    end end end end.

(** The loop over the lines of a block. *)
Definition scan (lines : list str) : pstate := fold_left step lines pstate0.

(** [x in xs] on a list of strings. *)
Definition mem (x : str) (xs : list str) : bool := existsb (str_eqb x) xs.

(** [for opt in options: if opt["letter"] in correct_letters: ...] *)
Definition mark (letters : list str) (o : Opt.t) : Opt.t :=
  if mem (Opt.letter o) letters
  then Opt.Make (Opt.letter o) (Opt.text o) true
  else o.

(** [sum(1 for o in options if o["correct"])] *)
Definition correct_count (os : list Opt.t) : nat :=
  length (filter Opt.correct os).

(** What follows the loop: marking, the body text, the type, the record. *)
Definition finish (st : pstate) (question_num : Z) : option Q.t :=
  let options := map (mark (correct_letters st)) (options st) in
  let question_text := strip (join [nl] (question_text_lines st)) in
  if is_empty question_text then None
  else
    let q_type :=
      if is_short_answer st || is_empty options then SA
      else if 1 <? correct_count options then MS
      else MC in
    let correct_explanation :=
      if qtype_eqb q_type SA && negb (is_empty (short_answer_text st))
      then if is_empty (correct_explanation st) then short_answer_text st
           else correct_explanation st
      else correct_explanation st in
    Some (Q.Make question_num q_type (title st) question_text options
            correct_explanation
            (if qtype_eqb q_type SA then short_answer_text st else [])).

Definition parse_question (lines : list str) (question_num : Z) : option Q.t :=
  match lines with
  | [] => None
  | _ :: _ => finish (scan lines) question_num
  end.

(* ================================================================== *)
(** ** [parse_quiz_file] *)

(** The local variables of [parse_quiz_file] that its loop updates. *)
Record lstate : Type := LState {
  questions : list Q.t;
  current_block : list str;
  question_num : Z;
  in_questions : bool
}.

Definition lstate0 : lstate := LState [] [] 0 false.

(** The header test of the loop: ["## "] but not ["## Learning Objectives"]. *)
Definition is_header (line : str) : bool :=
  startswith (lit "## ") (strip line)
  && negb (startswith (lit "## Learning Objectives") (strip line)).

(** The trailer test of the loop. *)
Definition is_trailer (line : str) : bool :=
  startswith (lit "## Learning Objectives") (strip line).

(** [if current_block and question_num > 0: q = parse_question(...);
    if q: questions.append(q)], as both branches of the loop have it. *)
Definition flush (s : lstate) : list Q.t :=
  if negb (is_empty (current_block s)) && (0 <? question_num s)%Z then
    match parse_question (current_block s) (question_num s) with
    | Some q => questions s ++ [q]
    | None => questions s
    end
  else questions s.

(** [for line in lines]; the trailer branch ends the loop ([break]). *)
Fixpoint loop (lines : list str) (s : lstate) : lstate :=
  match lines with
  | [] => s
  | line :: rest =>
      if is_header line then
        loop rest (LState (flush s) [line] (question_num s + 1) true)
      else if is_trailer line then
        LState (flush s) (current_block s) (question_num s) (in_questions s)
      else if in_questions s then
        loop rest (LState (questions s) (current_block s ++ [line])
                     (question_num s) (in_questions s))
      else loop rest s
  end.

(** [questions[-1]["num"]], when there is a last question. *)
Definition last_num (qs : list Q.t) : option Z :=
  match rev qs with
  | q :: _ => Some (Q.num q)
  | [] => None
  end.

(** The code after the loop ("Handle last block"). *)
Definition last_block (s : lstate) : list Q.t :=
  if negb (is_empty (current_block s)) && (0 <? question_num s)%Z then
    match parse_question (current_block s) (question_num s) with
    | Some q =>
        match last_num (questions s) with
        | None => questions s ++ [q]
        | Some n => if negb (n =? Q.num q)%Z then questions s ++ [q]
                    else questions s
        end
    | None => questions s
    end
  else questions s.

(** [parse_quiz_file] from the line list on. *)
Definition parse_quiz_lines (lines : list str) : list Q.t :=
  last_block (loop lines lstate0).

(** [parse_quiz_file], on the content read from the file. *)
Definition parse_quiz_file (content : str) : list Q.t :=
  parse_quiz_lines (split_nl content).

(* ================================================================== *)
(** ** [format_question_text] *)

Definition dquote : ascii := ascii_of_nat 34.
Definition space : ascii := ascii_of_nat 32.

(** The opening tag of the container of a code block. *)
Definition div_open : str :=
  lit "<div style=" ++ [dquote]
  ++ lit "font-family: monospace; background-color: #f4f4f4; padding: 10px; line-height: 1.4; font-size: 0.7em;"
  ++ [dquote] ++ lit ">".

Definition div_close : str := lit "</div>".

(** [f"__CODE_BLOCK_{i}__"] *)
Definition placeholder (i : nat) : str :=
  lit "__CODE_BLOCK_" ++ str_of_nat i ++ lit "__".

(** The text of a code block inside its container. *)
Definition code_with_br (code_content : str) : str :=
  join (lit "<br>")
    (map (replace [space] (lit "&nbsp;")) (split_nl code_content)).

(** The closure [replace_code_block]; its state is the list [code_blocks]. *)
Definition replace_code_block (code_blocks : list str) (m : list (nat * str))
  : list str * str :=
  let formatted_code := div_open ++ code_with_br (group 1 m) ++ div_close in
  let code_blocks := code_blocks ++ [formatted_code] in
  (code_blocks, placeholder (length code_blocks - 1)).

(** [for i, code_block in enumerate(code_blocks): result = result.replace(...)] *)
Fixpoint restore (i : nat) (code_blocks : list str) (result : str) : str :=
  match code_blocks with
  | [] => result
  | code_block :: rest =>
      restore (S i) rest (replace (placeholder i) code_block result)
  end.

Definition bold_repl (m : list (nat * str)) : str :=
  lit "<strong>" ++ group 1 m ++ lit "</strong>".

Definition code_repl (m : list (nat * str)) : str :=
  lit "<code>" ++ group 1 m ++ lit "</code>".

Definition format_question_text (text : str) : str :=
  let '(code_blocks, result) := re_sub_st re_fence replace_code_block [] text in
  let result := re_sub re_bold bold_repl result in
  let result := re_sub re_code code_repl result in
  let result := replace [nl] (lit "<br>") result in
  restore 0 code_blocks result.

(* ================================================================== *)
(** ** The vocabulary of the specification *)

(** The lines before the first trailer header. *)
Fixpoint before_trailer (lines : list str) : list str :=
  match lines with
  | [] => []
  | l :: rest => if is_trailer l then [] else l :: before_trailer rest
  end.

(** The line groups of a trailer-free line list: a header line opens a
    group, every other line joins the open group, and the lines before the
    first header belong to no group. *)
Fixpoint groups_go (cur : list str) (lines : list str) : list (list str) :=
  match lines with
  | [] => match cur with [] => [] | _ :: _ => [cur] end
  | l :: rest =>
      if is_header l then
        match cur with
        | [] => groups_go [l] rest
        | _ :: _ => cur :: groups_go [l] rest
        end
      else
        match cur with
        | [] => groups_go [] rest
        | _ :: _ => groups_go (cur ++ [l]) rest
        end
  end.

(** The line groups of a document: those of its lines before the trailer. *)
Definition groups (lines : list str) : list (list str) :=
  groups_go [] (before_trailer lines).

(** The questions of a list of groups numbered from [n] on. *)
Fixpoint parse_groups (n : Z) (gs : list (list str)) : list Q.t :=
  match gs with
  | [] => []
  | g :: gs' =>
      match parse_question g n with
      | Some q => q :: parse_groups (n + 1) gs'
      | None => parse_groups (n + 1) gs'
      end
  end.

(** The number of level-2 header lines before the trailer. *)
Definition header_count (lines : list str) : nat :=
  length (filter is_header (before_trailer lines)).

(** The body text a block accumulates, before trimming. *)
Definition body_text (lines : list str) : str :=
  join [nl] (question_text_lines (scan lines)).

(** A fence delimiter line, as [parse_question] tests it. *)
Definition is_fence (line : str) : bool := startswith (lit "```") (strip line).

(** Every question of a list has a number below [n]. *)
Definition nums_below (n : Z) (qs : list Q.t) : Prop :=
  forall q, In q qs -> (Q.num q < n)%Z.

(** Scenario 5 of the specification: three question blocks and a trailing
    "Learning Objectives" section (the document of the test suite's
    [test_parse_complete_quiz]). *)
Definition scenario5_document : str :=
  join [nl] (map lit [
    "# Test Quiz (3 Questions)"; ""; "---"; "";
    "## Topic 1: First Question"; ""; "First question text?"; "";
    "A. Option A"; "B. Option B"; "";
    "> Correct Answer: A. Option A";
    "> Overall Feedback: This is the correct answer."; ""; "---"; "";
    "## Topic 2: Second Question"; ""; "**Short Answer Question:**"; "";
    "What is the answer?"; "";
    "> Correct Answer: 42"; "> Overall Feedback: The answer is 42."; "";
    "---"; "";
    "## Topic 3: Third Question"; ""; "Select all that apply:"; "";
    "A. Option 1"; "B. Option 2"; "C. Option 3"; "";
    "> Correct Answers: A, B";
    "> Overall Feedback: Options 1 and 2 are correct."; ""; "---"; "";
    "## Learning Objectives Covered"; ""; "Summary table here."; ""
  ]%string).

(** The lines of [scenario5_document] before its trailer header, the trailer
    header, and the lines after it. *)
Definition scenario5_before : list str := firstn 40 (split_nl scenario5_document).
Definition scenario5_trailer : str := lit "## Learning Objectives Covered".
Definition scenario5_after : list str := map lit [""; "Summary table here."; ""]%string.

(** A document that ends inside its only block. *)
Definition open_ended_document : str :=
  join [nl] (map lit ["Preamble"; "## Topic"; "What is it?"]%string).

(** A block with a title, an option and a correct-answer line but no body
    text. *)
Definition bodyless_block : list str :=
  map lit ["## Topic: Sub"; "A. only option"; "> Correct Answer: A. only option"]%string.

(** A block with two options and no correct-answer line. *)
Definition unanswered_block : list str :=
  map lit ["## Topic"; "Pick one."; "A. first"; "B. second"]%string.

(** A block flagged as a short-answer item whose options include two
    correct ones. *)
Definition flagged_block : list str :=
  map lit ["## Topic"; "Short Answer Question"; "Pick."; "A. first";
           "B. second"; "> Correct Answers: A, B"]%string.

(** A block whose code fence is never closed. *)
Definition unterminated_block_before : list str :=
  map lit ["## Topic"; "What does it print?"]%string.
Definition unterminated_block_rest : list str :=
  map lit ["print(1)"; "A. 1"; "> Correct Answer: A. 1"]%string.

(** Whether a pattern contains the capturing group [n]. *)
Fixpoint has_group (n : nat) (r : regex) : bool :=
  match r with
  | Cat r1 r2 | Alt r1 r2 => has_group n r1 || has_group n r2
  | Grp m r' => (m =? n) || has_group n r'
  | _ => false
  end.

(** The six option letters, as one-character strings. *)
Definition option_letters : list str :=
  map lit ["A"; "B"; "C"; "D"; "E"; "F"]%string.

(** A block that uses the letter A for two options. *)
Definition repeated_letter_block : list str :=
  map lit ["## Topic"; "Which one?"; "A. first"; "A. second";
           "> Correct Answer: A. first"]%string.

(** Every option gathered so far has one of the six letters. *)
Definition letters_ok (st : pstate) : Prop :=
  Forall (fun o => In (Opt.letter o) option_letters) (options st).

(** Following the specification (4.2, rule 4): the standalone uppercase
    letters A-F immediately followed by a period, a comma, whitespace or
    the end of the text, from left to right.  A letter is standalone when no
    word character stands directly before it; [prev] is the character before
    the text still to be read. *)
Definition standalone (prev : option ascii) : bool :=
  match prev with
  | Some p => negb (is_word p)
  | None => true
  end.

Definition followed_ok (rest : str) : bool :=
  match rest with
  | d :: _ => is_chr "."%char d || is_chr ","%char d || is_space d
  | [] => true
  end.

Fixpoint spec_letters_go (prev : option ascii) (s : str) : list str :=
  match s with
  | [] => []
  | c :: s' =>
      if is_AF c && standalone prev && followed_ok s'
      then [c] :: spec_letters_go (Some c) s'
      else spec_letters_go (Some c) s'
  end.

Definition spec_correct_letters (text : str) : list str :=
  spec_letters_go None text.

(** A line that [parse_question] treats as a correct-answer declaration
    when it meets it outside a code block, with the remainder text of the
    declaration: the line carries no short-answer phrase (that test comes
    first in the loop) and matches the correct-answer pattern; the
    remainder is the trimmed text of the pattern's group. *)
Definition correct_decl (line : str) : option str :=
  let stripped := strip line in
  if contains (lit "**Short Answer Question:**") stripped
     || contains (lit "Short Answer Question") stripped
  then None
  else
    match re_match re_correct stripped with
    | Some m => Some (strip (group 1 m))
    | None => None
    end.

(** The character before a matcher position. *)
Definition prev_chr (b : str) : option ascii :=
  match b with
  | c :: _ => Some c
  | [] => None
  end.

(** A block with a correct-answer line naming two letters, and one whose
    correct-answer line names none. *)
Definition two_letter_block : list str :=
  map lit ["## Topic"; "Pick two."; "A. one"; "B. two"; "C. three"]%string.
Definition two_letter_line : str := lit "> Correct Answers: A, C".
Definition free_answer_line : str := lit "> Correct Answer: forty-two".

(** *** Well-formed markup around a fenced code region *)

(** The marker characters of the authoring markup. *)
Definition is_star (c : ascii) : bool := chr_eqb c "*"%char.
Definition is_tick (c : ascii) : bool := chr_eqb c "`"%char.
Definition is_marker (c : ascii) : bool := is_star c || is_tick c.

(** Text without marker characters. *)
Definition plain_str (s : str) : bool := forallb (fun c => negb (is_marker c)) s.

(** A piece of text outside the fence: one plain character, an emphasis
    pair around plain text, or an inline-code pair around plain text. *)
Inductive seg : Type :=
| Plain (c : ascii)
| Bold (s : str)
| Code (s : str).

Definition wf_seg (g : seg) : bool :=
  match g with
  | Plain c => negb (is_marker c)
  | Bold s | Code s => negb (is_empty s) && plain_str s
  end.

(** The authoring markup of a piece. *)
Definition render_seg (g : seg) : str :=
  match g with
  | Plain c => [c]
  | Bold s => lit "**" ++ s ++ lit "**"
  | Code s => lit "`" ++ s ++ lit "`"
  end.

Definition render (gs : list seg) : str := flat_map render_seg gs.

(** The target markup of a piece, newlines still to be converted. *)
Definition markup_seg (g : seg) : str :=
  match g with
  | Plain c => [c]
  | Bold s => lit "<strong>" ++ s ++ lit "</strong>"
  | Code s => lit "<code>" ++ s ++ lit "</code>"
  end.

Definition markup (gs : list seg) : str := flat_map markup_seg gs.

(** The target markup of a list of pieces. *)
Definition html (gs : list seg) : str := replace [nl] (lit "<br>") (markup gs).

(** Whether the last piece is an inline-code pair. *)
Fixpoint ends_with_code (gs : list seg) : bool :=
  match gs with
  | [] => false
  | [Code _] => true
  | _ :: rest => ends_with_code rest
  end.

(** A fenced code region: the opening delimiter with its language tag on a
    line of its own, the code, the closing delimiter. *)
Definition fenced (lang code : str) : str :=
  lit "```" ++ lang ++ [nl] ++ code ++ lit "```".

(** The code of a properly fenced region: the closing delimiter is the
    first triple backtick after the opening line. *)
Definition fence_free (code : str) : bool :=
  negb (contains (lit "```") (code ++ lit "``")).

(** Text in which the placeholder tokens of the translator cannot occur. *)
Definition no_placeholder (s : str) : bool :=
  negb (contains (lit "__CODE_BLOCK_") s).

(** A result of the scanning functions with text put in front. *)
Definition prepend {St : Type} (u : str) (p : St * str) : St * str :=
  (fst p, u ++ snd p).

(** A body text with a lone power operator before a fenced snippet. *)
Definition power_text : str :=
  join [nl] (map lit ["What is 2 ** 3?"; "```"; "print(8)"; "```"]%string).

(** A body text with an emphasis pair, an inline-code pair and a fenced
    snippet that contains markers of its own. *)
Definition marked_before : list seg :=
  [Bold (lit "Read"); Plain " "%char; Code (lit "f"); Plain ":"%char; Plain nl].
Definition marked_after : list seg := [Plain nl; Bold (lit "What?")].
Definition marked_code : str :=
  join [nl] (map lit ["x = 2 ** 3  # `pow`"; ""]%string).

(** Where the repeated class ends. *)
Definition stops (p : ascii -> bool) (a : str) : bool :=
  match a with
  | c :: _ => negb (p c)
  | [] => true
  end.

(** No option gathered so far is marked correct. *)
Definition unmarked (st : pstate) : Prop :=
  Forall (fun o => Opt.correct o = false) (options st).

(** A block with a complete code fence whose lines look like an option and
    a correct-answer line. *)
Definition fence_block_before : list str :=
  map lit ["## Topic"; "Read this:"]%string.
Definition fence_block_code : list str :=
  map lit ["A. not an option"; "> Correct Answer: B"]%string.

(** Text without a newline. *)
Definition nl_free (s : str) : Prop := Forall (fun c => c <> nl) s.

(** The markup of a piece once the emphasis pairs are rewritten and the
    inline-code pairs are not yet. *)
Definition bold_done_seg (g : seg) : str :=
  match g with
  | Bold s => lit "<strong>" ++ s ++ lit "</strong>"
  | _ => render_seg g
  end.

Definition bold_done (gs : list seg) : str := flat_map bold_done_seg gs.

(* ================================================================== *)
(** ** [write_d2l_csv] *)

(** [[a-zA-Z]] *)
Definition is_alpha (c : ascii) : bool := between 65 90 c || between 97 122 c.

(** [r"<[a-zA-Z][^>]*>"] *)
Definition re_tag : regex :=
  Seq [Lit (lit "<"); Chr is_alpha; Star (not_chr ">"%char); Lit (lit ">")].

(** [re.search(r, s)] as a truth value: whether the pattern matches at some
    position of [s], the end included. *)
Fixpoint search_go (r : regex) (b a : str) : bool :=
  match exec r b a with
  | Some _ => true
  | None =>
      match a with
      | c :: a' => search_go r (c :: b) a'
      | [] => false
      end
  end.

Definition re_search (r : regex) (s : str) : bool := search_go r [] s.

(** [f"{n:02d}"]: the decimal digits of [n], padded with a zero to two
    characters; a negative number has its sign and at least one digit, which
    already makes two. *)
Definition format_02d (n : Z) : str :=
  if (n <? 0)%Z then "-"%char :: str_of_nat (Z.to_nat (- n))
  else
    let digits := str_of_nat (Z.to_nat n) in
    if length digits <? 2 then "0"%char :: digits else digits.

(** The value of the ["type"] key as the string written to the file. *)
Definition type_code (t : qtype) : str :=
  match t with
  | SA => lit "SA"
  | MS => lit "MS"
  | MC => lit "MC"
  end.

(** ["HTML" if re.search(r"<[a-zA-Z][^>]*>", s) else ""] *)
Definition html_flag (s : str) : str :=
  if re_search re_tag s then lit "HTML" else [].

(** [f"{course_code}-Q{q['num']:02d}"] *)
Definition question_id (course_code : str) (q : Q.t) : str :=
  course_code ++ lit "-Q" ++ format_02d (Q.num q).

(** The option rows of a question, with the two scores of its type. *)
Definition option_rows (score_correct score_wrong : str) (os : list Opt.t)
  : list (list str) :=
  map (fun o =>
         [lit "Option";
          if Opt.correct o then score_correct else score_wrong;
          Opt.text o; html_flag (Opt.text o); []])
      os.

(** The rows [write_d2l_csv] writes for one question, in order; a question
    without text is skipped ([continue]). *)
Definition question_rows (course_code : str) (include_titles : bool) (q : Q.t)
  : list (list str) :=
  if is_empty (Q.text q) then []
  else
    let q_text := format_question_text (Q.text q) in
    let html_indicator := html_flag q_text in
    let title := if include_titles then Q.title q else [] in
    [ [lit "NewQuestion"; type_code (Q.type q); []; []; []];
      [lit "ID"; question_id course_code q; []; []; []];
      [lit "Title"; title; []; []; []];
      [lit "QuestionText"; q_text; html_indicator; []; []];
      [lit "Points"; lit "1"; []; []; []];
      [lit "Difficulty"; lit "2"; []; []; []] ]
    ++ match Q.type q with
       | MC => option_rows (lit "100") (lit "0") (Q.options q)
       | MS => [lit "Scoring"; lit "RightAnswers"; []; []; []]
               :: option_rows (lit "1") (lit "0") (Q.options q)
       | SA =>
           [ [lit "InputBox"; lit "1"; lit "50"; []; []];
             [lit "Answer"; lit "100";
              if is_empty (Q.short_answer q) then lit "See marking guide"
              else Q.short_answer q;
              []; []] ]
       end
    ++ (if negb (is_empty (Q.correct_explanation q))
           && negb (qtype_eqb (Q.type q) SA)
        then [[lit "Feedback"; Q.correct_explanation q; []; []; []]]
        else [])
    ++ [[]].

(** The rows of the header comments. *)
Definition header_rows : list (list str) :=
  [ [lit "// Converted from quiz markdown using gen_quiz_csv.py"];
    [lit "// Originally developed for SIT xSITe LMS - may require modifications for other D2L instances"];
    [lit "// Question types: MC=Multiple Choice, MS=Multi-Select, SA=Short Answer"];
    [] ].

(** [write_d2l_csv], as the list of rows handed to the CSV writer (how the
    writer quotes and joins the fields of a row is the [csv] module's
    business). *)
Definition write_d2l_csv (questions : list Q.t) (course_code : str)
    (include_titles : bool) : list (list str) :=
  header_rows ++ flat_map (question_rows course_code include_titles) questions.

(** The rows whose first field is a given keyword, and their second field. *)
Definition rows_tagged (tag : str) (rows : list (list str)) : list (list str) :=
  filter (fun row => match row with
                     | f :: _ => str_eqb f tag
                     | [] => false
                     end) rows.

Definition second_field (row : list str) : str :=
  match row with
  | _ :: f :: _ => f
  | _ => []
  end.

(** Reading a number back from its decimal digits (leading zeros allowed). *)
Definition read_nat (s : str) : option nat :=
  option_map Nat.of_uint (NilZero.uint_of_string (string_of_list_ascii s)).

(** The scores of the option rows written for a question, and how often a
    score occurs among them. *)
Definition written_scores (course_code : str) (include_titles : bool)
    (q : Q.t) : list str :=
  map second_field
    (rows_tagged (lit "Option") (question_rows course_code include_titles q)).

Definition count_of (s : str) (l : list str) : nat :=
  length (filter (str_eqb s) l).

(** A line group as the splitter builds it: it opens with a header line,
    and that line holds no newline. *)
Definition headed (g : list str) : Prop :=
  match g with
  | h :: _ => is_header h = true /\ nl_free h
  | [] => False
  end.

(** Text on one line. *)
Definition one_line (s : str) : bool :=
  forallb (fun c => negb (chr_eqb c nl)) s.

(** The remainders of the lines of a block that [parse_question] handles as
    correct-answer declarations, in order: a delimiter line opens or closes
    a code block, the lines inside a code block are passed over, and
    outside one a line counts when [correct_decl] gives its remainder. *)
Fixpoint declarations_go (in_code : bool) (lines : list str) : list str :=
  match lines with
  | [] => []
  | l :: rest =>
      if is_fence l then declarations_go (negb in_code) rest
      else if in_code then declarations_go true rest
      else
        match correct_decl l with
        | Some t => t :: declarations_go false rest
        | None => declarations_go false rest
        end
  end.

Definition declarations (lines : list str) : list str :=
  declarations_go false lines.

(** A block whose line of the correct-answer form carries the short-answer
    phrase, and one whose second line of that form lies inside a code
    block. *)
Definition phrase_block : list str :=
  map lit ["## Topic"; "Which one?"; "A. one"; "B. two"]%string.
Definition phrase_line : str :=
  lit "> Correct Answer: B. It is a Short Answer Question".
Definition fenced_decl_block : list str :=
  map lit ["## Topic"; "Which one?"; "A. one"; "B. two";
           "> Correct Answer: A"; "```"; "> Correct Answer: B"; "```"]%string.

(* ================================================================== *)
(** * Properties *)

(* ------------------------------------------------------------------ *)
(** ** The question parser *)

Lemma scan_app (xs ys : list str) :
  scan (xs ++ ys) = fold_left step ys (scan xs).
Proof. unfold scan. apply fold_left_app. Qed.

Lemma is_empty_true {A : Type} (l : list A) : is_empty l = true <-> l = [].
Proof. destruct l; simpl; split; congruence. Qed.

Lemma is_empty_false {A : Type} (l : list A) : is_empty l = false <-> l <> [].
Proof. destruct l; simpl; split; congruence. Qed.

(** The number a question carries is the one [parse_question] was given. *)
Lemma parse_question_num (lines : list str) (n : Z) (q : Q.t) :
  parse_question lines n = Some q -> Q.num q = n.
Proof.
  unfold parse_question, finish. destruct lines; [discriminate|].
  destruct (is_empty _); [discriminate|].
  intros H. injection H as <-. reflexivity.
Qed.

(** The body of an emitted question is the trimmed accumulated text. *)
Lemma parse_question_text (lines : list str) (n : Z) (q : Q.t) :
  parse_question lines n = Some q ->
  Q.text q = strip (body_text lines) /\ Q.text q <> [].
Proof.
  unfold parse_question, finish, body_text. destruct lines; [discriminate|].
  destruct (is_empty _) eqn:E; [discriminate|].
  intros H. injection H as <-. simpl. split; [reflexivity|].
  now apply is_empty_false.
Qed.

(* ------------------------------------------------------------------ *)
(** ** The block splitter *)

Lemma header_not_trailer (l : str) : is_header l = true -> is_trailer l = false.
Proof.
  unfold is_header, is_trailer. intros H.
  apply andb_true_iff in H as [_ H]. now apply negb_true_iff in H.
Qed.

Lemma last_num_snoc (qs : list Q.t) (q : Q.t) :
  last_num (qs ++ [q]) = Some (Q.num q).
Proof. unfold last_num. now rewrite rev_app_distr. Qed.

Lemma last_num_in (qs : list Q.t) (n : Z) :
  last_num qs = Some n -> exists q, In q qs /\ Q.num q = n.
Proof.
  unfold last_num. destruct (rev qs) as [|q r] eqn:E; [discriminate|].
  intros H. injection H as <-. exists q. split; [|reflexivity].
  apply in_rev. rewrite E. now left.
Qed.

(** The code after the loop adds the question of the open block when the
    questions gathered so far have smaller numbers. *)
Lemma last_block_open (qs : list Q.t) (cur : list str) (n : Z) (inq : bool) :
  cur <> [] -> (0 < n)%Z -> nums_below n qs ->
  last_block (LState qs cur n inq) = qs ++ parse_groups n [cur].
Proof.
  intros Hc Hn Hq. unfold last_block. simpl.
  apply is_empty_false in Hc. rewrite Hc.
  apply Z.ltb_lt in Hn. rewrite Hn. simpl.
  destruct (parse_question cur n) as [q|] eqn:P; [|now rewrite app_nil_r].
  destruct (last_num qs) as [m|] eqn:L; [|reflexivity].
  apply last_num_in in L as (q' & Hin & <-).
  apply Hq in Hin. apply parse_question_num in P.
  replace (Q.num q' =? Q.num q)%Z with false; [reflexivity|].
  symmetry. apply Z.eqb_neq. lia.
Qed.

(** After the trailer branch has added the question of the open block, the
    code after the loop parses that block again and adds nothing. *)
Lemma last_block_flushed (qs : list Q.t) (cur : list str) (n : Z) (inq : bool) :
  cur <> [] -> (0 < n)%Z ->
  last_block (LState (flush (LState qs cur n inq)) cur n inq)
  = qs ++ parse_groups n [cur].
Proof.
  intros Hc Hn. unfold last_block, flush. simpl.
  apply is_empty_false in Hc. rewrite Hc.
  apply Z.ltb_lt in Hn. rewrite Hn. simpl.
  destruct (parse_question cur n) as [q|] eqn:P; [|now rewrite app_nil_r].
  rewrite last_num_snoc, Z.eqb_refl. reflexivity.
Qed.

Lemma flush_open (qs : list Q.t) (cur : list str) (n : Z) (inq : bool) :
  cur <> [] -> (0 < n)%Z ->
  flush (LState qs cur n inq) = qs ++ parse_groups n [cur].
Proof.
  intros Hc Hn. unfold flush. simpl.
  apply is_empty_false in Hc. rewrite Hc.
  apply Z.ltb_lt in Hn. rewrite Hn. simpl.
  destruct (parse_question cur n); [reflexivity|now rewrite app_nil_r].
Qed.

Lemma parse_groups_below (gs : list (list str)) (n m : Z) :
  (n + Z.of_nat (length gs) <= m)%Z -> nums_below m (parse_groups n gs).
Proof.
  revert n. induction gs as [|g gs IH]; intros n H q Hin; simpl in *.
  - contradiction.
  - destruct (parse_question g n) as [q'|] eqn:P.
    + destruct Hin as [<-|Hin].
      * apply parse_question_num in P. lia.
      * apply (IH (n + 1)%Z); [lia|assumption].
    + apply (IH (n + 1)%Z); [lia|assumption].
Qed.

Lemma parse_groups_from (gs : list (list str)) (n : Z) (q : Q.t) :
  In q (parse_groups n gs) -> (n <= Q.num q)%Z.
Proof.
  revert n. induction gs as [|g gs IH]; intros n Hin; simpl in *.
  - contradiction.
  - destruct (parse_question g n) as [q'|] eqn:P.
    + destruct Hin as [<-|Hin].
      * apply parse_question_num in P. lia.
      * apply IH in Hin. lia.
    + apply IH in Hin. lia.
Qed.

Lemma parse_groups_app (gs hs : list (list str)) (n : Z) :
  parse_groups n (gs ++ hs)
  = parse_groups n gs ++ parse_groups (n + Z.of_nat (length gs)) hs.
Proof.
  revert n. induction gs as [|g gs IH]; intros n; simpl.
  - now rewrite Z.add_0_r.
  - rewrite IH. replace (n + 1 + Z.of_nat (length gs))%Z
      with (n + Z.pos (Pos.of_succ_nat (length gs)))%Z by lia.
    destruct (parse_question g n); reflexivity.
Qed.

(** The loop from a state with an open block. *)
Lemma loop_open (lines : list str) :
  forall (qs : list Q.t) (cur : list str) (n : Z),
    cur <> [] -> (0 < n)%Z -> nums_below n qs ->
    last_block (loop lines (LState qs cur n true))
    = qs ++ parse_groups n (groups_go cur (before_trailer lines)).
Proof.
  induction lines as [|l rest IH]; intros qs cur n Hc Hn Hq.
  - simpl. rewrite last_block_open by assumption.
    destruct cur; [congruence|reflexivity].
  - simpl loop. simpl before_trailer.
    destruct (is_header l) eqn:Hh.
    + rewrite (header_not_trailer _ Hh). simpl groups_go. rewrite Hh.
      simpl. rewrite flush_open by assumption.
      rewrite IH.
      * destruct cur as [|c cur']; [congruence|].
        change (parse_groups n ((c :: cur') :: groups_go [l] (before_trailer rest)))
          with (parse_groups n ([c :: cur'] ++ groups_go [l] (before_trailer rest))).
        rewrite parse_groups_app, app_assoc. reflexivity.
      * discriminate.
      * lia.
      * intros q Hin. apply in_app_or in Hin as [Hin|Hin].
        -- apply Hq in Hin. lia.
        -- revert q Hin. apply parse_groups_below. simpl. lia.
    + destruct (is_trailer l) eqn:Ht.
      * simpl. change (flush (LState qs cur n true))
          with (flush (LState qs cur n true)).
        rewrite last_block_flushed by assumption.
        destruct cur; [congruence|reflexivity].
      * simpl. rewrite Hh. rewrite IH; try assumption.
        -- destruct cur; [congruence|reflexivity].
        -- destruct cur; discriminate.
Qed.

(** The splitter and the parser together: the output is the questions of
    the line groups before the trailer, numbered from 1 in document order,
    each group parsed once. *)
Lemma parse_quiz_lines_groups (lines : list str) :
  parse_quiz_lines lines = parse_groups 1 (groups lines).
Proof.
  unfold parse_quiz_lines, groups.
  induction lines as [|l rest IH]; [reflexivity|].
  simpl loop. simpl before_trailer.
  destruct (is_header l) eqn:Hh.
  - rewrite (header_not_trailer _ Hh). simpl. rewrite Hh.
    change (flush lstate0) with (@nil Q.t).
    rewrite loop_open; [reflexivity|discriminate|lia|intros q []].
  - destruct (is_trailer l) eqn:Ht.
    + reflexivity.
    + simpl. rewrite Hh. exact IH.
Qed.

Lemma parse_groups_sorted (gs : list (list str)) (n : Z) :
  StronglySorted Z.lt (map Q.num (parse_groups n gs)).
Proof.
  revert n. induction gs as [|g gs IH]; intros n; simpl.
  - constructor.
  - destruct (parse_question g n) as [q|] eqn:P; [|apply IH].
    simpl. constructor; [apply IH|].
    apply Forall_forall. intros m Hm. apply in_map_iff in Hm as (q' & <- & Hin).
    apply parse_groups_from in Hin. apply parse_question_num in P. lia.
Qed.

Lemma sorted_nodup (l : list Z) : StronglySorted Z.lt l -> NoDup l.
Proof.
  induction 1 as [|a l _ IH Hall]; constructor; [|exact IH].
  intros Hin. rewrite Forall_forall in Hall. apply Hall in Hin. lia.
Qed.

Lemma parse_groups_length (gs : list (list str)) (n : Z) :
  length (parse_groups n gs) <= length gs.
Proof.
  revert n. induction gs as [|g gs IH]; intros n; simpl; [lia|].
  specialize (IH (n + 1)%Z). destruct (parse_question g n); simpl; lia.
Qed.

(** A group is lost from the count exactly when its parse is [None]. *)
Lemma parse_groups_short (gs : list (list str)) (n : Z) :
  length (parse_groups n gs) < length gs <->
  exists i g, nth_error gs i = Some g
              /\ parse_question g (n + Z.of_nat i) = None.
Proof.
  revert n. induction gs as [|g gs IH]; intros n; simpl.
  - split; [lia|]. intros (i & g & H & _). destruct i; discriminate.
  - pose proof (parse_groups_length gs (n + 1)) as Hle.
    destruct (parse_question g n) as [q|] eqn:P; simpl.
    + rewrite <- Nat.succ_lt_mono, (IH (n + 1)%Z). split.
      * intros (i & g' & Hi & Hp). exists (S i), g'. split; [exact Hi|].
        rewrite <- Hp. f_equal. lia.
      * intros (i & g' & Hi & Hp). destruct i as [|i].
        -- simpl in Hi. injection Hi as <-.
           rewrite Z.add_0_r in Hp. congruence.
        -- exists i, g'. split; [exact Hi|]. rewrite <- Hp. f_equal. lia.
    + split; [|lia]. intros _. exists 0, g. split; [reflexivity|].
      now rewrite Z.add_0_r.
Qed.

Lemma groups_go_length (lines cur : list str) :
  length (groups_go cur lines)
  = (if is_empty cur then 0 else 1) + length (filter is_header lines).
Proof.
  revert cur. induction lines as [|l rest IH]; intros cur; simpl.
  - destruct cur; reflexivity.
  - destruct (is_header l); destruct cur; simpl; rewrite IH; simpl;
      try reflexivity; destruct (_ ++ _) eqn:E; try reflexivity;
      now apply app_eq_nil in E as [_ E].
Qed.

(** There are as many groups as header lines before the trailer. *)
Lemma groups_length (lines : list str) :
  length (groups lines) = header_count lines.
Proof. unfold groups, header_count. now rewrite groups_go_length. Qed.

(** C5.  For every document, the number of questions [parse_quiz_file]
    returns is at most the number of level-2 header lines before the
    trailer header, and it is strictly smaller exactly when some block is
    discarded, that is when [parse_question] returns [None] for one of the
    line groups (the group at index [i], counted from 0, is parsed with
    sequence number [i + 1]). *)
Theorem C5_count_at_most_headers (content : str) :
  length (parse_quiz_file content) <= header_count (split_nl content)
  /\ (length (parse_quiz_file content) < header_count (split_nl content) <->
      exists i g, nth_error (groups (split_nl content)) i = Some g
                  /\ parse_question g (Z.of_nat i + 1) = None).
Proof.
  unfold parse_quiz_file. rewrite parse_quiz_lines_groups, <- groups_length.
  split; [apply parse_groups_length|].
  rewrite parse_groups_short. split; intros (i & g & Hi & Hp); exists i, g;
    (split; [exact Hi|]); rewrite <- Hp; f_equal; lia.
Qed.

(** C10.  For every document, the sequence numbers of the questions
    [parse_quiz_file] returns are strictly increasing in list order, hence
    pairwise distinct; and each block contributes at most one question: the
    output is the questions of the line groups, every group parsed once with
    its own number, although the code after the loop hands the last block to
    [parse_question] a second time when the trailer branch already did. *)
Theorem C10_sequence_numbers_increase (content : str) :
  StronglySorted Z.lt (map Q.num (parse_quiz_file content))
  /\ NoDup (map Q.num (parse_quiz_file content))
  /\ parse_quiz_file content = parse_groups 1 (groups (split_nl content))
  /\ length (parse_quiz_file content) <= length (groups (split_nl content)).
Proof.
  unfold parse_quiz_file. rewrite parse_quiz_lines_groups.
  pose proof (parse_groups_sorted (groups (split_nl content)) 1) as Hs.
  repeat split.
  - exact Hs.
  - now apply sorted_nodup.
  - apply parse_groups_length.
Qed.

Lemma before_trailer_cut (pre post : list str) (t : str) :
  is_trailer t = true -> before_trailer (pre ++ t :: post) = before_trailer pre.
Proof.
  intros Ht. induction pre as [|l pre IH]; simpl.
  - now rewrite Ht.
  - destruct (is_trailer l); [reflexivity|now rewrite IH].
Qed.

Lemma before_trailer_none (lines : list str) :
  existsb is_trailer lines = false -> before_trailer lines = lines.
Proof.
  induction lines as [|l rest IH]; simpl; [reflexivity|].
  intros H. apply orb_false_iff in H as [-> H]. now rewrite IH.
Qed.

Lemma groups_trailer_cut (pre post : list str) (t : str) :
  is_trailer t = true -> groups (pre ++ t :: post) = groups pre.
Proof. intros Ht. unfold groups. now rewrite before_trailer_cut. Qed.

(** C4.  For every document with a header line whose trimmed text begins
    with "## Learning Objectives", no question of the output comes from a
    line at or after that header and every valid block before it is still
    emitted: the output is that of the lines before the header alone, namely
    the questions of their line groups.  Scenario 5: three valid question
    headers followed by a trailing Learning Objectives section give exactly
    three questions. *)
Theorem C4_trailer_stops_splitting :
  (forall (content : str) (pre post : list str) (t : str),
      split_nl content = pre ++ t :: post ->
      is_trailer t = true ->
      parse_quiz_file content = parse_quiz_lines pre
      /\ parse_quiz_file content = parse_groups 1 (groups pre))
  /\ length (parse_quiz_file scenario5_document) = 3.
Proof.
  split; [|vm_compute; reflexivity].
  intros content pre post t Hs Ht. unfold parse_quiz_file.
  rewrite Hs, !parse_quiz_lines_groups, (groups_trailer_cut _ _ _ Ht).
  split; reflexivity.
Qed.

Lemma groups_go_no_header (body cur : list str) :
  cur <> [] -> existsb is_header body = false ->
  groups_go cur body = [cur ++ body].
Proof.
  revert cur. induction body as [|l body IH]; intros cur Hc H; simpl in *.
  - rewrite app_nil_r. destruct cur; [congruence|reflexivity].
  - apply orb_false_iff in H as [-> H].
    destruct cur as [|c cur']; [congruence|].
    rewrite IH; [|destruct cur'; discriminate|assumption].
    now rewrite <- app_assoc.
Qed.

Lemma groups_go_last (pre body cur : list str) (h : str) :
  is_header h = true -> existsb is_header body = false ->
  groups_go cur (pre ++ h :: body) = groups_go cur pre ++ [h :: body].
Proof.
  intros Hh Hb. revert cur. induction pre as [|l pre IH]; intros cur; simpl.
  - rewrite Hh, (groups_go_no_header body [h]) by (assumption || discriminate).
    destruct cur; reflexivity.
  - destruct (is_header l); destruct cur; rewrite IH; reflexivity.
Qed.

(** C7.  For every document that ends without a trailer header, the final
    open block (its last header line [h] and the lines [body] after it) is
    still parsed, with the number of its header; and when it yields a
    question, that question stands at the end of the output and nowhere
    before: it is neither dropped nor duplicated. *)
Theorem C7_final_block_emitted
    (content : str) (pre body : list str) (h : str) :
  split_nl content = pre ++ h :: body ->
  existsb is_trailer (split_nl content) = false ->
  is_header h = true ->
  existsb is_header body = false ->
  parse_quiz_file content
  = parse_quiz_lines pre
    ++ parse_groups (Z.of_nat (header_count pre) + 1) [h :: body]
  /\ forall q,
      parse_question (h :: body) (Z.of_nat (header_count pre) + 1) = Some q ->
      parse_quiz_file content = parse_quiz_lines pre ++ [q]
      /\ ~ In q (parse_quiz_lines pre).
Proof.
  intros Hs Hnt Hh Hb.
  assert (Hpre : existsb is_trailer pre = false).
  { rewrite Hs, existsb_app in Hnt. now apply orb_false_iff in Hnt. }
  assert (E : parse_quiz_file content
              = parse_quiz_lines pre
                ++ parse_groups (Z.of_nat (header_count pre) + 1) [h :: body]).
  { assert (G : groups (split_nl content) = groups pre ++ [h :: body]).
    { unfold groups.
      rewrite (before_trailer_none _ Hnt), (before_trailer_none _ Hpre), Hs.
      now apply groups_go_last. }
    unfold parse_quiz_file.
    rewrite !parse_quiz_lines_groups, G, parse_groups_app, groups_length.
    do 2 f_equal. lia. }
  split; [exact E|].
  intros q Hq. split.
  - rewrite E. unfold parse_groups at 1. now rewrite Hq.
  - intros Hin. rewrite parse_quiz_lines_groups in Hin.
    apply (parse_groups_below _ 1 (Z.of_nat (header_count pre) + 1)) in Hin.
    + apply parse_question_num in Hq. lia.
    + rewrite groups_length. lia.
Qed.

Lemma C4_trailer_stops_splitting_witness :
  split_nl scenario5_document
  = scenario5_before ++ scenario5_trailer :: scenario5_after
  /\ is_trailer scenario5_trailer = true
  /\ parse_quiz_file scenario5_document = parse_quiz_lines scenario5_before.
Proof.
  assert (H1 : split_nl scenario5_document
               = scenario5_before ++ scenario5_trailer :: scenario5_after)
    by (vm_compute; reflexivity).
  assert (H2 : is_trailer scenario5_trailer = true) by (vm_compute; reflexivity).
  split; [exact H1|]. split; [exact H2|].
  exact (proj1 (proj1 C4_trailer_stops_splitting scenario5_document
                  scenario5_before scenario5_after scenario5_trailer H1 H2)).
Defined.
Lemma C7_final_block_emitted_witness :
  split_nl open_ended_document
  = [lit "Preamble"] ++ lit "## Topic" :: [lit "What is it?"]
  /\ exists q,
      parse_question (lit "## Topic" :: [lit "What is it?"])
        (Z.of_nat (header_count [lit "Preamble"]) + 1) = Some q
      /\ parse_quiz_file open_ended_document
         = parse_quiz_lines [lit "Preamble"] ++ [q].
Proof.
  assert (H1 : split_nl open_ended_document
               = [lit "Preamble"] ++ lit "## Topic" :: [lit "What is it?"])
    by (vm_compute; reflexivity).
  assert (H2 : existsb is_trailer (split_nl open_ended_document) = false)
    by (vm_compute; reflexivity).
  assert (H3 : is_header (lit "## Topic") = true) by (vm_compute; reflexivity).
  assert (H4 : existsb is_header [lit "What is it?"] = false)
    by (vm_compute; reflexivity).
  split; [exact H1|].
  destruct (parse_question (lit "## Topic" :: [lit "What is it?"])
              (Z.of_nat (header_count [lit "Preamble"]) + 1)) as [q|] eqn:P.
  - exists q. split; [reflexivity|].
    exact (proj1 (proj2 (C7_final_block_emitted open_ended_document
                           [lit "Preamble"] [lit "What is it?"]
                           (lit "## Topic") H1 H2 H3 H4) q P)).
  - exfalso. vm_compute in P. discriminate P.
Defined.

(* ------------------------------------------------------------------ *)
(** ** Discarded blocks *)

Lemma parse_groups_in (gs : list (list str)) (n : Z) (q : Q.t) :
  In q (parse_groups n gs) -> exists g m, parse_question g m = Some q.
Proof.
  revert n. induction gs as [|g gs IH]; intros n Hin; simpl in Hin.
  - contradiction.
  - destruct (parse_question g n) as [q'|] eqn:P.
    + destruct Hin as [<-|Hin]; [now exists g, n|now apply (IH (n + 1)%Z)].
    + now apply (IH (n + 1)%Z).
Qed.

Lemma parse_question_empty_body (lines : list str) (n : Z) :
  strip (body_text lines) = [] -> parse_question lines n = None.
Proof.
  unfold parse_question, finish, body_text. intros H.
  destruct lines; [reflexivity|]. now rewrite H.
Qed.

(** C6.  [parse_question] returns [None] for an empty line group and for
    every group whose accumulated body text trims to the empty string, also
    when the group contributed a title, an option and a correct-answer line
    (the block [bodyless_block]); hence no question with an empty body occurs
    in the output of [parse_quiz_file]. *)
Theorem C6_empty_body_discarded :
  (forall n, parse_question [] n = None)
  /\ (forall lines n,
         strip (body_text lines) = [] -> parse_question lines n = None)
  /\ (title (scan bodyless_block) <> []
      /\ options (scan bodyless_block) <> []
      /\ correct_letters (scan bodyless_block) <> []
      /\ parse_question bodyless_block 1 = None)
  /\ (forall content q, In q (parse_quiz_file content) -> Q.text q <> []).
Proof.
  split; [reflexivity|]. split; [exact parse_question_empty_body|]. split.
  - split; [vm_compute; discriminate|]. split; [vm_compute; discriminate|].
    split; [vm_compute; discriminate|]. vm_compute. reflexivity.
  - intros content q Hin. unfold parse_quiz_file in Hin.
    rewrite parse_quiz_lines_groups in Hin.
    apply parse_groups_in in Hin as (g & m & P).
    now apply parse_question_text in P.
Qed.

Lemma C6_empty_body_discarded_witness :
  strip (body_text bodyless_block) = []
  /\ parse_question bodyless_block 7 = None.
Proof.
  assert (H : strip (body_text bodyless_block) = [])
    by (vm_compute; reflexivity).
  split; [exact H|].
  exact (proj1 (proj2 C6_empty_body_discarded) bodyless_block 7%Z H).
Defined.

(* ------------------------------------------------------------------ *)
(** ** Unterminated code fences *)

(** Inside a code block a line that is no delimiter only joins the buffer. *)
Lemma step_in_code (st : pstate) (buf : list str) (line : str) :
  is_fence line = false ->
  step (set_code true buf st) line = set_code true (buf ++ [line]) st.
Proof.
  unfold step, is_fence. intros ->. reflexivity.
Qed.

Lemma fold_step_in_code (rest : list str) :
  forall (st : pstate) (buf : list str),
    existsb is_fence rest = false ->
    fold_left step rest (set_code true buf st) = set_code true (buf ++ rest) st.
Proof.
  induction rest as [|l rest IH]; intros st buf H; simpl in *.
  - now rewrite app_nil_r.
  - apply orb_false_iff in H as [Hl H].
    rewrite step_in_code by exact Hl. rewrite IH by exact H.
    now rewrite <- app_assoc.
Qed.

(** A delimiter met outside a code block opens one. *)
Lemma step_open_fence (st : pstate) (line : str) :
  in_code_block st = false -> is_fence line = true ->
  step st line = set_code true [line] st.
Proof.
  unfold step, is_fence. intros -> ->. reflexivity.
Qed.

(** The state at the end of a block whose last fence is never closed. *)
Lemma scan_unterminated (pre rest : list str) (opening : str) :
  in_code_block (scan pre) = false ->
  is_fence opening = true ->
  existsb is_fence rest = false ->
  scan (pre ++ opening :: rest) = set_code true (opening :: rest) (scan pre).
Proof.
  intros Hp Ho Hr. rewrite scan_app. simpl.
  rewrite step_open_fence by assumption.
  now rewrite fold_step_in_code.
Qed.

Lemma finish_set_code (st : pstate) (flag : bool) (buf : list str) (n : Z) :
  finish (set_code flag buf st) n = finish st n.
Proof. reflexivity. Qed.

(** C9.  When a block has an opening fence delimiter with no closing
    delimiter after it, no line from that delimiter to the end of the block
    reaches the body: the body text, and the whole result of
    [parse_question], are those of the lines before the delimiter (the
    pending fence buffer is never flushed); and when no body text precedes
    the unterminated fence, [parse_question] returns [None]. *)
Theorem C9_unterminated_fence_dropped
    (pre rest : list str) (opening : str) (n : Z) :
  in_code_block (scan pre) = false ->
  is_fence opening = true ->
  existsb is_fence rest = false ->
  body_text (pre ++ opening :: rest) = body_text pre
  /\ parse_question (pre ++ opening :: rest) n = parse_question pre n
  /\ (strip (body_text pre) = [] ->
      parse_question (pre ++ opening :: rest) n = None).
Proof.
  intros Hp Ho Hr.
  pose proof (scan_unterminated pre rest opening Hp Ho Hr) as E.
  assert (B : body_text (pre ++ opening :: rest) = body_text pre).
  { unfold body_text. now rewrite E. }
  split; [exact B|]. split.
  - unfold parse_question.
    destruct pre as [|p pre']; simpl app in *; cbv iota beta; rewrite E;
      rewrite finish_set_code; reflexivity.
  - intros H. apply parse_question_empty_body. now rewrite B.
Qed.

Lemma C9_unterminated_fence_dropped_witness :
  parse_question
    (unterminated_block_before ++ lit "```python" :: unterminated_block_rest) 4
  = parse_question unterminated_block_before 4.
Proof.
  assert (H1 : in_code_block (scan unterminated_block_before) = false)
    by (vm_compute; reflexivity).
  assert (H2 : is_fence (lit "```python") = true) by (vm_compute; reflexivity).
  assert (H3 : existsb is_fence unterminated_block_rest = false)
    by (vm_compute; reflexivity).
  exact (proj1 (proj2 (C9_unterminated_fence_dropped
                         unterminated_block_before unterminated_block_rest
                         (lit "```python") 4%Z H1 H2 H3))).
Defined.

(* ------------------------------------------------------------------ *)
(** ** The kind of a question *)

Lemma qtype_of_finish (st : pstate) (n : Z) (q : Q.t) :
  finish st n = Some q ->
  Q.options q = map (mark (correct_letters st)) (options st)
  /\ Q.type q =
       (if is_short_answer st || is_empty (Q.options q) then SA
        else if 1 <? correct_count (Q.options q) then MS else MC).
Proof.
  unfold finish. destruct (is_empty (strip _)); [discriminate|].
  intros H. injection H as <-. simpl. split; reflexivity.
Qed.

(** C1, as the code has it.  For every question [parse_question] produces:
    the kind is free-response iff the block was flagged short-answer or has
    no options; multi-select iff it is not flagged and more than one option
    is marked correct; single-select iff it is not flagged, has an option,
    and at most one option is marked correct (none included). *)
Theorem C1_kind_classification (lines : list str) (n : Z) (q : Q.t) :
  parse_question lines n = Some q ->
  (Q.type q = SA <->
     is_short_answer (scan lines) = true \/ Q.options q = [])
  /\ (Q.type q = MS <->
        is_short_answer (scan lines) = false
        /\ 1 < correct_count (Q.options q))
  /\ (Q.type q = MC <->
        is_short_answer (scan lines) = false
        /\ Q.options q <> []
        /\ correct_count (Q.options q) <= 1).
Proof.
  unfold parse_question. destruct lines as [|l lines']; [discriminate|].
  intros H. apply qtype_of_finish in H as [_ T]. rewrite T. clear T.
  destruct (is_short_answer (scan (l :: lines'))).
  - simpl. intuition (try discriminate; try congruence).
  - destruct (Q.options q) as [|o os] eqn:O.
    + simpl. unfold correct_count. simpl.
      intuition (try discriminate; try congruence; try lia).
    + simpl orb. cbv iota.
      destruct (1 <? correct_count (o :: os)) eqn:C.
      * apply Nat.ltb_lt in C.
        intuition (try discriminate; try congruence; try lia).
      * apply Nat.ltb_ge in C.
        intuition (try discriminate; try congruence; try lia).
Qed.

Lemma C1_kind_classification_witness :
  exists q, parse_question unanswered_block 1 = Some q
            /\ (Q.type q = MC <->
                  is_short_answer (scan unanswered_block) = false
                  /\ Q.options q <> []
                  /\ correct_count (Q.options q) <= 1).
Proof.
  destruct (parse_question unanswered_block 1) as [q|] eqn:P.
  - exists q. split; [reflexivity|].
    exact (proj2 (proj2 (C1_kind_classification unanswered_block 1%Z q P))).
  - exfalso. vm_compute in P. discriminate P.
Defined.

(** C1 as stated fails twice.  A block with options and no correct-answer
    line is single-select with no option marked correct, so "single-select
    iff exactly one option is correct" fails; a flagged block with two
    correct options is free-response, so "multi-select iff more than one
    option is correct" fails. *)
Lemma C1_counterexample :
  match parse_question unanswered_block 1, parse_question flagged_block 1 with
  | Some q1, Some q2 =>
      (Q.type q1 = MC /\ correct_count (Q.options q1) = 0
       /\ ~ (Q.type q1 = MC <->
               correct_count (Q.options q1) = 1
               /\ is_short_answer (scan unanswered_block) = false))
      /\ (Q.type q2 = SA /\ correct_count (Q.options q2) = 2
          /\ ~ (Q.type q2 = MS <-> 1 < correct_count (Q.options q2)))
  | _, _ => False
  end.
Proof.
  destruct (parse_question unanswered_block 1) as [q1|] eqn:P1;
    vm_compute in P1; [injection P1 as <-|discriminate P1].
  destruct (parse_question flagged_block 1) as [q2|] eqn:P2;
    vm_compute in P2; [injection P2 as <-|discriminate P2].
  simpl Q.type. simpl Q.options.
  change (correct_count _) with 0 at 1 2.
  change (correct_count _) with 2.
  repeat split.
  - intros [H _]. specialize (H eq_refl). destruct H as [H _]. discriminate H.
  - intros [_ H]. specialize (H ltac:(lia)). discriminate H.
Qed.

(* ------------------------------------------------------------------ *)
(** ** The matcher *)

Section RunSound.
Context {A : Type}.

Lemma star_greedy_sound (p : ascii -> bool) (k : mstate -> option A)
    (cs : list (nat * str)) (a : str) :
  forall (b : str) (x : A),
    star_greedy p k cs b a = Some x ->
    exists b' a', k (MState b' a' cs) = Some x.
Proof.
  induction a as [|c a IH]; intros b x H; simpl in H.
  - now exists b, [].
  - destruct (p c).
    + destruct (star_greedy p k cs (c :: b) a) as [y|] eqn:E.
      * injection H as <-. now apply (IH (c :: b)).
      * now exists b, (c :: a).
    + now exists b, (c :: a).
Qed.

Lemma star_lazy_sound (p : ascii -> bool) (k : mstate -> option A)
    (cs : list (nat * str)) (a : str) :
  forall (b : str) (x : A),
    star_lazy p k cs b a = Some x ->
    exists b' a', k (MState b' a' cs) = Some x.
Proof.
  induction a as [|c a IH]; intros b x H; simpl in H.
  - destruct (k (MState b [] cs)) as [y|] eqn:E; [|discriminate].
    injection H as <-. now exists b, [].
  - destruct (k (MState b (c :: a) cs)) as [y|] eqn:E.
    + injection H as <-. now exists b, (c :: a).
    + destruct (p c); [now apply (IH (c :: b))|discriminate].
Qed.

(** A successful run ends in its continuation, and a group the pattern does
    not contain keeps the text it had. *)
Lemma run_sound (n : nat) (r : regex) :
  forall (s : mstate) (k : mstate -> option A) (x : A),
    run r s k = Some x ->
    exists s', k s' = Some x
               /\ (has_group n r = false ->
                   group n (caps s') = group n (caps s)).
Proof.
  induction r as [|p|r1 IH1 r2 IH2|r1 IH1 r2 IH2|p|p|m r IH| | |];
    intros s k x H; simpl in H.
  - now exists s.
  - destruct (aft s) as [|c a]; [discriminate|].
    destruct (p c); [|discriminate]. eexists. split; [exact H|reflexivity].
  - apply IH1 in H as (s1 & H & G1). apply IH2 in H as (s2 & H & G2).
    exists s2. split; [exact H|]. simpl. intros G.
    apply orb_false_iff in G as [Ga Gb]. now rewrite G2, G1.
  - simpl. destruct (run r1 s k) as [y|] eqn:E.
    + injection H as <-. apply IH1 in E as (s1 & E & G1).
      exists s1. split; [exact E|]. intros G.
      apply orb_false_iff in G as [Ga _]. now apply G1.
    + apply IH2 in H as (s2 & H & G2).
      exists s2. split; [exact H|]. intros G.
      apply orb_false_iff in G as [_ Gb]. now apply G2.
  - apply star_greedy_sound in H as (b' & a' & H).
    eexists. split; [exact H|reflexivity].
  - apply star_lazy_sound in H as (b' & a' & H).
    eexists. split; [exact H|reflexivity].
  - apply IH in H as (s1 & H & G1).
    eexists. split; [exact H|]. simpl. intros G.
    apply orb_false_iff in G as [Ga Gb]. rewrite Ga. now apply G1.
  - destruct (bef s); [|discriminate]. now exists s.
  - destruct (at_eol s); [|discriminate]. now exists s.
  - destruct (at_wordb s); [|discriminate]. now exists s.
Qed.
End RunSound.

(* ------------------------------------------------------------------ *)
(** ** Option letters *)

Lemma is_AF_letters (c : ascii) : is_AF c = true -> In [c] option_letters.
Proof.
  destruct c as [[] [] [] [] [] [] [] []]; intros H;
    try discriminate H; vm_compute; tauto.
Qed.

(** Group 1 of a match of the option pattern is one letter of A-F. *)
Lemma re_option_letter (s : str) (m : list (nat * str)) :
  re_match re_option s = Some m -> In (group 1 m) option_letters.
Proof.
  unfold re_match, exec. destruct (run re_option _ _) as [s'|] eqn:R;
    [|discriminate].
  intros H. injection H as <-.
  unfold re_option in R. simpl Seq in R. simpl in R.
  destruct s as [|c a]; [discriminate R|].
  destruct (is_AF c) eqn:C; [|discriminate R].
  destruct a as [|d a]; [discriminate R|].
  destruct (is_chr "." d); [|discriminate R].
  match type of R with
  | star_greedy ?p ?k ?cs ?b ?a' = Some _ =>
      change (run (Star p) (MState b a' cs) k = Some s') in R
  end.
  apply (run_sound 1) in R as (s1 & R & G1).
  destruct (aft s1) as [|e a1]; [discriminate R|].
  destruct (is_dot e); [|discriminate R].
  apply star_greedy_sound in R as (b2 & a2 & R).
  destruct (at_eol _); [|discriminate R].
  injection R as <-. simpl. simpl in G1. rewrite (G1 eq_refl).
  now apply is_AF_letters.
Qed.

Lemma step_letters_ok (st : pstate) (line : str) :
  letters_ok st -> letters_ok (step st line).
Proof.
  unfold letters_ok, step, on_correct. intros H.
  destruct (startswith (lit "```") (strip line)).
  { destruct (in_code_block st); exact H. }
  destruct (in_code_block st); [exact H|].
  destruct (is_empty (strip line) || str_eqb (strip line) (lit "---"));
    [exact H|].
  destruct (re_match re_header (strip line)); [exact H|].
  destruct (contains (lit "**Short Answer Question:**") (strip line)
            || contains (lit "Short Answer Question") (strip line));
    [exact H|].
  destruct (re_match re_correct (strip line)).
  { destruct (is_empty (findall re_letter _)); exact H. }
  destruct (re_match re_feedback (strip line)); [exact H|].
  destruct (re_match re_option (strip line)) as [m|] eqn:M.
  { simpl. apply Forall_app. split; [exact H|].
    constructor; [|constructor]. simpl. exact (re_option_letter _ _ M). }
  destruct (startswith (lit "*Reference:") (strip line)
            || startswith (lit "*Note:") (strip line)); exact H.
Qed.

Lemma scan_letters_ok (lines : list str) : letters_ok (scan lines).
Proof.
  unfold scan.
  assert (G : forall st, letters_ok st -> letters_ok (fold_left step lines st)).
  { induction lines as [|l lines IH]; intros st H; simpl; [exact H|].
    apply IH. now apply step_letters_ok. }
  apply G. constructor.
Qed.

Lemma mark_letter (ls : list str) (o : Opt.t) :
  Opt.letter (mark ls o) = Opt.letter o.
Proof. unfold mark. destruct (mem _ _); reflexivity. Qed.

(** C3, as the code has it.  For every question [parse_question] produces,
    the letter of each option is one of A, B, C, D, E, F.  (Letters need not
    differ: each option line adds an option, whatever letters came before.) *)
Theorem C3_option_letters (lines : list str) (n : Z) (q : Q.t) (o : Opt.t) :
  parse_question lines n = Some q ->
  In o (Q.options q) ->
  In (Opt.letter o) option_letters.
Proof.
  unfold parse_question. destruct lines as [|l lines']; [discriminate|].
  intros H Hin. apply qtype_of_finish in H as [O _]. rewrite O in Hin.
  apply in_map_iff in Hin as (o' & <- & Hin). rewrite mark_letter.
  pose proof (scan_letters_ok (l :: lines')) as L.
  unfold letters_ok in L. rewrite Forall_forall in L. now apply L.
Qed.

Lemma C3_option_letters_witness :
  exists q o, parse_question repeated_letter_block 1 = Some q
              /\ In o (Q.options q)
              /\ In (Opt.letter o) option_letters.
Proof.
  destruct (parse_question repeated_letter_block 1) as [q|] eqn:P.
  - destruct (Q.options q) as [|o os] eqn:O.
    + exfalso. vm_compute in P. injection P as <-. discriminate O.
    + exists q, o. split; [reflexivity|].
      assert (Hin : In o (Q.options q)) by (rewrite O; now left).
      split; [exact Hin|].
      exact (C3_option_letters repeated_letter_block 1%Z q o P Hin).
  - exfalso. vm_compute in P. discriminate P.
Defined.

(** C3 as stated fails on uniqueness: a block with two option lines that
    start with A yields two options with the letter A, both marked correct
    by a correct-answer line naming A. *)
Lemma C3_counterexample :
  match parse_question repeated_letter_block 1 with
  | Some q =>
      map Opt.letter (Q.options q) = [lit "A"; lit "A"]
      /\ map Opt.text (Q.options q) = [lit "first"; lit "second"]
      /\ ~ NoDup (map Opt.letter (Q.options q))
  | None => False
  end.
Proof.
  destruct (parse_question repeated_letter_block 1) as [q|] eqn:P;
    vm_compute in P; [injection P as <-|discriminate P].
  split; [reflexivity|]. split; [reflexivity|].
  simpl. intros H. inversion H as [|x l Hn _]. apply Hn. now left.
Qed.

(* ------------------------------------------------------------------ *)
(** ** Correct-answer letters *)

Lemma consumed_one (b a a' : str) (c : ascii) (cs cs' : list (nat * str)) :
  consumed (MState b a cs) (MState (c :: b) a' cs') = [c].
Proof.
  unfold consumed. simpl bef.
  change (length (c :: b)) with (S (length b)).
  replace (S (length b) - length b) with 1 by lia.
  reflexivity.
Qed.

Lemma is_AF_word (c : ascii) : is_AF c = true -> is_word c = true.
Proof.
  destruct c as [[] [] [] [] [] [] [] []]; intros H;
    try discriminate H; reflexivity.
Qed.

Lemma nl_is_space (d : ascii) : chr_eqb d nl = true -> is_space d = true.
Proof. intros H. apply Ascii.eqb_eq in H. now subst d. Qed.

Lemma exec_letter (b a : str) (c : ascii) :
  exec re_letter b (c :: a)
  = if is_AF c && standalone (prev_chr b) && followed_ok a
    then match a with
         | d :: a' => Some (MState (d :: c :: b) a' [(1, [c])])
         | [] => Some (MState (c :: b) [] [(1, [c])])
         end
    else None.
Proof.
  unfold exec, re_letter. simpl Seq.
  cbn -[consumed]. rewrite !consumed_one. unfold at_wordb, at_eol. simpl.
  destruct (is_AF c) eqn:C.
  - rewrite (is_AF_word _ C). simpl.
    destruct b as [|p b]; simpl.
    + destruct a as [|d a]; simpl; [reflexivity|].
      destruct (is_chr "." d); [reflexivity|].
      destruct (is_chr "," d); [reflexivity|].
      destruct (is_space d) eqn:S; [reflexivity|]. simpl.
      destruct a; [|reflexivity].
      destruct (chr_eqb d nl) eqn:N; [|reflexivity].
      apply nl_is_space in N. congruence.
    + rewrite xorb_true_r. destruct (is_word p); simpl; [reflexivity|].
      destruct a as [|d a]; simpl; [reflexivity|].
      destruct (is_chr "." d); [reflexivity|].
      destruct (is_chr "," d); [reflexivity|].
      destruct (is_space d) eqn:S; [reflexivity|]. simpl.
      destruct a; [|reflexivity].
      destruct (chr_eqb d nl) eqn:N; [|reflexivity].
      apply nl_is_space in N. congruence.
  - simpl. destruct (xorb _ _); reflexivity.
Qed.

Lemma follower_not_AF (d : ascii) :
  is_chr "." d || is_chr "," d || is_space d = true -> is_AF d = false.
Proof.
  destruct d as [[] [] [] [] [] [] [] []]; intros H;
    try discriminate H; reflexivity.
Qed.

(** A character that is no letter of A-F starts no match. *)
Lemma findall_letter_skip (b a : str) (d : ascii) :
  is_AF d = false ->
  findall_go re_letter b (d :: a) 1 = findall_go re_letter b (d :: a) 0.
Proof.
  intros H. simpl findall_go. rewrite exec_letter, H. reflexivity.
Qed.

(** The matches of the letter pattern are the letters the specification
    describes. *)
Lemma findall_letter_spec (a : str) :
  forall b, findall_go re_letter b a 0 = spec_letters_go (prev_chr b) a.
Proof.
  induction a as [|c a IH]; intros b; [reflexivity|].
  simpl findall_go. simpl spec_letters_go. rewrite exec_letter.
  destruct (is_AF c && standalone (prev_chr b) && followed_ok a) eqn:E.
  - destruct a as [|d a']; unfold span; simpl bef.
    + change (length (c :: b)) with (S (length b)).
      replace (S (length b) - length b) with 1 by lia.
      reflexivity.
    + change (length (d :: c :: b)) with (S (S (length b))).
      replace (S (S (length b)) - length b) with 2 by lia.
      simpl group. f_equal.
      apply andb_true_iff in E as [_ E]. simpl in E.
      rewrite findall_letter_skip by now apply follower_not_AF.
      apply (IH (c :: b)).
  - apply (IH (c :: b)).
Qed.

Lemma findall_letter (text : str) :
  findall re_letter text = spec_correct_letters text.
Proof. apply findall_letter_spec. Qed.

Lemma re_correct_gt (s : str) (m : list (nat * str)) :
  re_match re_correct s = Some m -> exists s', s = ">"%char :: s'.
Proof.
  unfold re_match, exec, re_correct. simpl Seq. simpl run.
  destruct s as [|c s]; [discriminate|].
  unfold is_chr at 1. destruct (chr_eqb c ">") eqn:E; [|discriminate].
  apply Ascii.eqb_eq in E. subst c. intros _. now exists s.
Qed.

(** Outside a code block a correct-answer declaration reaches its branch. *)
Lemma step_correct_decl (st : pstate) (line t : str) :
  in_code_block st = false -> correct_decl line = Some t ->
  step st line = on_correct t st.
Proof.
  unfold correct_decl, step. intros Hc H.
  destruct (contains (lit "**Short Answer Question:**") (strip line)
            || contains (lit "Short Answer Question") (strip line)) eqn:F;
    [discriminate|].
  destruct (re_match re_correct (strip line)) as [m|] eqn:M; [|discriminate].
  injection H as <-.
  destruct (re_correct_gt _ _ M) as (s' & E). rewrite E in *.
  rewrite Hc. simpl. reflexivity.
Qed.

(** A line that is no correct-answer declaration leaves the correct letters
    and the free-response answer as they are. *)
Lemma step_no_decl (st : pstate) (line : str) :
  correct_decl line = None ->
  correct_letters (step st line) = correct_letters st
  /\ short_answer_text (step st line) = short_answer_text st.
Proof.
  unfold correct_decl, step. intros H.
  destruct (startswith (lit "```") (strip line)).
  { destruct (in_code_block st); split; reflexivity. }
  destruct (in_code_block st); [split; reflexivity|].
  destruct (is_empty (strip line) || str_eqb (strip line) (lit "---"));
    [split; reflexivity|].
  destruct (re_match re_header (strip line)); [split; reflexivity|].
  destruct (contains (lit "**Short Answer Question:**") (strip line)
            || contains (lit "Short Answer Question") (strip line));
    [split; reflexivity|].
  destruct (re_match re_correct (strip line)); [discriminate|].
  destruct (re_match re_feedback (strip line)); [split; reflexivity|].
  destruct (re_match re_option (strip line)); [split; reflexivity|].
  destruct (startswith (lit "*Reference:") (strip line)
            || startswith (lit "*Note:") (strip line)); split; reflexivity.
Qed.

Lemma on_correct_fields (t : str) (st : pstate) :
  correct_letters (on_correct t st) = spec_correct_letters t
  /\ (spec_correct_letters t = [] -> short_answer_text (on_correct t st) = t).
Proof.
  unfold on_correct. rewrite findall_letter.
  destruct (spec_correct_letters t) eqn:E; simpl; split;
    try reflexivity; discriminate.
Qed.

(** The code-block flag after a line: a delimiter line flips it, every other
    line leaves it. *)
Lemma step_flag (st : pstate) (line : str) :
  in_code_block (step st line)
  = if is_fence line then negb (in_code_block st) else in_code_block st.
Proof.
  unfold step, is_fence.
  destruct (startswith (lit "```") (strip line)).
  { destruct (in_code_block st); reflexivity. }
  destruct (in_code_block st) eqn:C; [reflexivity|].
  destruct (is_empty (strip line) || str_eqb (strip line) (lit "---"));
    [exact C|].
  destruct (re_match re_header (strip line)); [exact C|].
  destruct (contains (lit "**Short Answer Question:**") (strip line)
            || contains (lit "Short Answer Question") (strip line));
    [exact C|].
  destruct (re_match re_correct (strip line)).
  { unfold on_correct. cbv zeta. destruct (is_empty _); exact C. }
  destruct (re_match re_feedback (strip line)); [exact C|].
  destruct (re_match re_option (strip line)); [exact C|].
  destruct (startswith (lit "*Reference:") (strip line)
            || startswith (lit "*Note:") (strip line)); exact C.
Qed.

(** A delimiter line, and a line inside a code block, leave the correct
    letters and the free-response answer as they are. *)
Lemma step_code_keeps (st : pstate) (line : str) :
  is_fence line = true \/ in_code_block st = true ->
  correct_letters (step st line) = correct_letters st
  /\ short_answer_text (step st line) = short_answer_text st.
Proof.
  unfold step, is_fence. intros H.
  destruct (startswith (lit "```") (strip line)).
  { destruct (in_code_block st); split; reflexivity. }
  destruct H as [H|H]; [discriminate|]. rewrite H. split; reflexivity.
Qed.

Lemma on_correct_answer (t : str) (st : pstate) :
  short_answer_text (on_correct t st)
  = if is_empty (spec_correct_letters t) then t else short_answer_text st.
Proof.
  unfold on_correct. rewrite findall_letter.
  destruct (spec_correct_letters t); reflexivity.
Qed.

Lemma correct_decl_no_fence (line t : str) :
  correct_decl line = Some t -> is_fence line = false.
Proof.
  unfold correct_decl, is_fence.
  destruct (contains _ _ || contains _ _); [discriminate|].
  destruct (re_match re_correct (strip line)) as [m|] eqn:M; [|discriminate].
  intros _. destruct (re_correct_gt _ _ M) as (s' & ->). reflexivity.
Qed.

(** The loop over a block, seen from the declarations it handles: each one
    replaces the correct letters by those of its remainder, and replaces the
    free-response answer by its remainder when it has no letter. *)
Lemma fold_step_declarations (lines : list str) :
  forall st,
    correct_letters (fold_left step lines st)
    = fold_left (fun _ t => spec_correct_letters t)
        (declarations_go (in_code_block st) lines) (correct_letters st)
    /\ short_answer_text (fold_left step lines st)
       = fold_left
           (fun acc t => if is_empty (spec_correct_letters t) then t else acc)
           (declarations_go (in_code_block st) lines) (short_answer_text st).
Proof.
  induction lines as [|l lines IH]; intros st; [split; reflexivity|].
  cbn [fold_left declarations_go].
  destruct (IH (step st l)) as [IL IS]. rewrite IL, IS, step_flag.
  destruct (is_fence l) eqn:F.
  { destruct (step_code_keeps st l (or_introl F)) as [-> ->].
    split; reflexivity. }
  destruct (in_code_block st) eqn:C.
  { destruct (step_code_keeps st l (or_intror C)) as [-> ->].
    split; reflexivity. }
  destruct (correct_decl l) as [t|] eqn:D.
  - rewrite (step_correct_decl st l t C D). cbn [fold_left].
    rewrite on_correct_answer, (proj1 (on_correct_fields t st)).
    split; reflexivity.
  - destruct (step_no_decl st l D) as [-> ->]. split; reflexivity.
Qed.

(** C2, as the code has it.  The lines [parse_question] handles as
    correct-answer declarations are those of the correct-answer form that it
    meets outside a code block and that carry no short-answer phrase
    ([declarations]).  For every block: when there is no such line, the
    correct-letter list and the free-response answer candidate stay empty;
    otherwise the correct-letter list is exactly the standalone uppercase
    letters A-F of the remainder text of the last such line that are
    immediately followed by a period, a comma, whitespace or the end of the
    text, from left to right, and when there is no such letter, that whole
    remainder text is the free-response answer candidate. *)
Theorem C2_correct_letters (lines : list str) :
  (declarations lines = [] ->
   correct_letters (scan lines) = []
   /\ short_answer_text (scan lines) = [])
  /\ (forall ds t,
        declarations lines = ds ++ [t] ->
        correct_letters (scan lines) = spec_correct_letters t
        /\ findall re_letter t = spec_correct_letters t
        /\ (spec_correct_letters t = [] ->
            short_answer_text (scan lines) = t)).
Proof.
  unfold scan, declarations.
  destruct (fold_step_declarations lines pstate0) as [L S].
  change (in_code_block pstate0) with false in L, S.
  rewrite L, S. split.
  - intros ->. split; reflexivity.
  - intros ds t ->. rewrite !fold_left_app. cbn [fold_left].
    split; [reflexivity|]. split; [apply findall_letter|].
    intros ->. reflexivity.
Qed.

Lemma C2_correct_letters_witness :
  declarations fenced_decl_block = [] ++ [lit "A"]
  /\ correct_letters (scan fenced_decl_block) = spec_correct_letters (lit "A")
  /\ spec_correct_letters (lit "A") = [lit "A"].
Proof.
  assert (H : declarations fenced_decl_block = [] ++ [lit "A"])
    by (vm_compute; reflexivity).
  split; [exact H|]. split; [|vm_compute; reflexivity].
  exact (proj1 (proj2 (C2_correct_letters fenced_decl_block) [] (lit "A") H)).
Defined.

(** C2 as stated fails.  The last line of the block [phrase_block] followed
    by [phrase_line] has the correct-answer form, and the standalone letter
    of its remainder text is B; but the line carries the short-answer
    phrase, which the loop tests first: no letter is extracted, the
    remainder is not captured, and only the short-answer flag is set. *)
Lemma C2_counterexample :
  (exists m, re_match re_correct (strip phrase_line) = Some m
             /\ strip (group 1 m) = lit "B. It is a Short Answer Question")
  /\ spec_correct_letters (lit "B. It is a Short Answer Question") = [lit "B"]
  /\ correct_letters (scan (phrase_block ++ [phrase_line])) = []
  /\ short_answer_text (scan (phrase_block ++ [phrase_line])) = []
  /\ is_short_answer (scan (phrase_block ++ [phrase_line])) = true.
Proof.
  split.
  - eexists. split; vm_compute; reflexivity.
  - repeat split; vm_compute; reflexivity.
Qed.

(* ------------------------------------------------------------------ *)
(** ** The markup translator *)

(** C8 as stated fails.  The text [power_text] has a properly fenced code
    region whose code holds no marker character, and a lone [**] (a power
    operator) before the fence.  The translation keeps that [**] as it is:
    only pairs of markers are rewritten. *)
Lemma C8_counterexample :
  power_text
  = lit "What is 2 ** 3?" ++ [nl] ++ fenced [] (lit "print(8)" ++ [nl])
  /\ plain_str (lit "print(8)" ++ [nl]) = true
  /\ fence_free (lit "print(8)" ++ [nl]) = true
  /\ format_question_text power_text
     = lit "What is 2 ** 3?<br>" ++ div_open ++ lit "print(8)<br>" ++ div_close
  /\ contains (lit "**") (format_question_text power_text) = true.
Proof. repeat split; vm_compute; reflexivity. Qed.

(** *** Scanning *)

Section Scanning.
Context {St : Type}.
Variable r : regex.
Variable repl : St -> list (nat * str) -> St * str.

(** A position where the pattern does not match passes its character on. *)
Lemma sub_go_nomatch (st : St) (b a : str) (c : ascii) :
  exec r b (c :: a) = None ->
  sub_go r repl st b (c :: a) 0 = prepend [c] (sub_go r repl st (c :: b) a 0).
Proof.
  intros H. simpl. rewrite H. unfold prepend.
  destruct (sub_go r repl st (c :: b) a 0). reflexivity.
Qed.

(** The characters of a match are passed over. *)
Lemma sub_go_skip (st : St) (u : str) :
  forall b a,
    sub_go r repl st b (u ++ a) (length u) = sub_go r repl st (rev u ++ b) a 0.
Proof.
  induction u as [|c u IH]; intros b a; simpl.
  - destruct a; reflexivity.
  - rewrite IH, <- app_assoc. reflexivity.
Qed.

(** A match of [S (length u)] characters is replaced and passed over. *)
Lemma sub_go_match (st : St) (b u a : str) (c : ascii) (s' : mstate) :
  exec r b (c :: u ++ a) = Some s' ->
  span b s' = S (length u) ->
  sub_go r repl st b (c :: u ++ a) 0
  = prepend (snd (repl st (caps s')))
      (sub_go r repl (fst (repl st (caps s'))) (rev u ++ c :: b) a 0).
Proof.
  intros H Hs. simpl. rewrite H, Hs.
  destruct (repl st (caps s')) as [st1 t]. simpl fst. simpl snd.
  rewrite sub_go_skip. unfold prepend.
  destruct (sub_go r repl st1 (rev u ++ c :: b) a 0). reflexivity.
Qed.

(** A stretch of text in which the pattern matches nowhere is passed on. *)
Lemma sub_go_clear (st : St) (u : str) :
  forall b a,
    (forall u1 c u2, u = u1 ++ c :: u2 ->
                     exec r (rev u1 ++ b) (c :: u2 ++ a) = None) ->
    sub_go r repl st b (u ++ a) 0
    = prepend u (sub_go r repl st (rev u ++ b) a 0).
Proof.
  induction u as [|c u IH]; intros b a H.
  - unfold prepend. simpl. destruct (sub_go r repl st b a 0). reflexivity.
  - change ((c :: u) ++ a) with (c :: u ++ a).
    rewrite sub_go_nomatch by (apply (H [] c u); reflexivity).
    rewrite IH.
    + unfold prepend. simpl. rewrite <- app_assoc. reflexivity.
    + intros u1 d u2 E. specialize (H (c :: u1) d u2).
      simpl in H. rewrite <- app_assoc in H. apply H. now rewrite E.
Qed.
End Scanning.

Lemma prepend_prepend {St : Type} (u v : str) (p : St * str) :
  prepend u (prepend v p) = prepend (u ++ v) p.
Proof. unfold prepend. simpl. now rewrite app_assoc. Qed.

(** *** Repetition *)

Lemma consumed_app (b a a' t : str) (cs cs' : list (nat * str)) :
  consumed (MState b a cs) (MState (rev t ++ b) a' cs') = t.
Proof.
  unfold consumed. simpl bef. rewrite length_app, Nat.add_sub.
  rewrite firstn_app, firstn_all, Nat.sub_diag, firstn_0, app_nil_r.
  apply rev_involutive.
Qed.

Section Stars.
Context {A : Type}.

(** Greedy repetition runs to the end of the stretch of the class first. *)
Lemma star_greedy_all (p : ascii -> bool) (k : mstate -> option A)
    (cs : list (nat * str)) (w a : str) (x : A) :
  forall b,
    forallb p w = true -> stops p a = true ->
    k (MState (rev w ++ b) a cs) = Some x ->
    star_greedy p k cs b (w ++ a) = Some x.
Proof.
  induction w as [|c w IH]; intros b Hw Ha Hk; simpl in *.
  - destruct a as [|d a]; simpl; [exact Hk|].
    simpl in Ha. apply negb_true_iff in Ha. now rewrite Ha.
  - apply andb_true_iff in Hw as [Hc Hw]. rewrite Hc.
    rewrite (IH (c :: b)); [reflexivity|assumption|assumption|].
    now rewrite <- app_assoc in Hk.
Qed.

(** Lazy repetition stops at the first position its continuation accepts. *)
Lemma star_lazy_first (p : ascii -> bool) (k : mstate -> option A)
    (cs : list (nat * str)) (w a : str) (x : A) :
  forall b,
    forallb p w = true ->
    (forall w1 c w2, w = w1 ++ c :: w2 ->
                     k (MState (rev w1 ++ b) (c :: w2 ++ a) cs) = None) ->
    k (MState (rev w ++ b) a cs) = Some x ->
    star_lazy p k cs b (w ++ a) = Some x.
Proof.
  induction w as [|c w IH]; intros b Hw Hn Hk.
  - simpl in *. destruct a; simpl; now rewrite Hk.
  - simpl in Hw. apply andb_true_iff in Hw as [Hc Hw].
    change ((c :: w) ++ a) with (c :: w ++ a). simpl star_lazy.
    pose proof (Hn [] c w eq_refl) as H0. simpl in H0. rewrite H0, Hc.
    apply IH; [assumption| |].
    + intros w1 d w2 E. specialize (Hn (c :: w1) d w2).
      simpl in Hn. rewrite <- app_assoc in Hn. apply Hn. now rewrite E.
    + simpl in Hk. now rewrite <- app_assoc in Hk.
Qed.
End Stars.

(* ------------------------------------------------------------------ *)
(** ** Further properties of the question parser *)

Lemma str_eqb_eq (a b : str) : str_eqb a b = true <-> a = b.
Proof.
  revert b. induction a as [|x a IH]; intros [|y b]; simpl;
    try (split; congruence).
  rewrite andb_true_iff, IH. unfold chr_eqb. rewrite Ascii.eqb_eq.
  split; [intros [-> ->]; reflexivity|intros H; injection H; auto].
Qed.

Lemma mem_In (x : str) (xs : list str) : mem x xs = true <-> In x xs.
Proof.
  unfold mem. rewrite existsb_exists. split.
  - intros (y & Hy & E). apply str_eqb_eq in E. now subst.
  - intros H. exists x. split; [exact H|now apply str_eqb_eq].
Qed.

Lemma step_unmarked (st : pstate) (line : str) :
  unmarked st -> unmarked (step st line).
Proof.
  unfold unmarked, step, on_correct. intros H.
  destruct (startswith (lit "```") (strip line)).
  { destruct (in_code_block st); exact H. }
  destruct (in_code_block st); [exact H|].
  destruct (is_empty (strip line) || str_eqb (strip line) (lit "---"));
    [exact H|].
  destruct (re_match re_header (strip line)); [exact H|].
  destruct (contains (lit "**Short Answer Question:**") (strip line)
            || contains (lit "Short Answer Question") (strip line));
    [exact H|].
  destruct (re_match re_correct (strip line)).
  { destruct (is_empty (findall re_letter _)); exact H. }
  destruct (re_match re_feedback (strip line)); [exact H|].
  destruct (re_match re_option (strip line)) as [m|].
  { simpl. apply Forall_app. split; [exact H|].
    constructor; [reflexivity|constructor]. }
  destruct (startswith (lit "*Reference:") (strip line)
            || startswith (lit "*Note:") (strip line)); exact H.
Qed.

Lemma scan_unmarked (lines : list str) : unmarked (scan lines).
Proof.
  unfold scan.
  assert (G : forall st, unmarked st -> unmarked (fold_left step lines st)).
  { induction lines as [|l lines IH]; intros st H; simpl; [exact H|].
    apply IH. now apply step_unmarked. }
  apply G. constructor.
Qed.

(** Marking.  In every question [parse_question] produces, an option is
    marked correct exactly when its letter is among the correct letters the
    block declared (those of its last correct-answer line). *)
Theorem correct_iff_letter_declared
    (lines : list str) (n : Z) (q : Q.t) (o : Opt.t) :
  parse_question lines n = Some q ->
  In o (Q.options q) ->
  (Opt.correct o = true <-> In (Opt.letter o) (correct_letters (scan lines))).
Proof.
  unfold parse_question. destruct lines as [|l lines']; [discriminate|].
  intros H Hin. apply qtype_of_finish in H as [O _]. rewrite O in Hin.
  apply in_map_iff in Hin as (o' & <- & Hin).
  pose proof (scan_unmarked (l :: lines')) as U.
  unfold unmarked in U. rewrite Forall_forall in U. specialize (U o' Hin).
  rewrite mark_letter, <- mem_In. unfold mark.
  destruct (mem (Opt.letter o') (correct_letters (scan (l :: lines')))).
  - simpl. tauto.
  - rewrite U. split; discriminate.
Qed.

Lemma correct_iff_letter_declared_witness :
  exists q o, parse_question (two_letter_block ++ [two_letter_line]) 1 = Some q
              /\ In o (Q.options q)
              /\ (Opt.correct o = true <->
                    In (Opt.letter o)
                       (correct_letters
                          (scan (two_letter_block ++ [two_letter_line])))).
Proof.
  destruct (parse_question (two_letter_block ++ [two_letter_line]) 1)
    as [q|] eqn:P.
  - destruct (Q.options q) as [|o os] eqn:O.
    + exfalso. vm_compute in P. injection P as <-. discriminate O.
    + exists q, o. split; [reflexivity|].
      assert (Hin : In o (Q.options q)) by (rewrite O; now left).
      split; [exact Hin|].
      exact (correct_iff_letter_declared _ 1%Z q o P Hin).
  - exfalso. vm_compute in P. discriminate P.
Defined.

(** A delimiter met inside a code block closes it and adds the buffered
    lines, the delimiter included, to the body as one fragment. *)
Lemma step_close_fence (st : pstate) (buf : list str) (line : str) :
  is_fence line = true ->
  step (set_code true buf st) line
  = set_code false []
      (set_text_lines (question_text_lines st ++ [join [nl] (buf ++ [line])])
         st).
Proof.
  unfold step, is_fence. intros ->. reflexivity.
Qed.

(** Complete fences.  A code fence that is opened outside a code block and
    closed by the next delimiter adds exactly one fragment to the body: its
    lines, delimiters included, joined by newlines and otherwise verbatim.
    Nothing else changes, whatever the lines inside look like: no option, no
    correct letter, no title, no flag comes from them. *)
Theorem closed_fence_is_one_fragment
    (pre inside : list str) (opening closing : str) :
  in_code_block (scan pre) = false ->
  is_fence opening = true ->
  existsb is_fence inside = false ->
  is_fence closing = true ->
  scan (pre ++ opening :: inside ++ [closing])
  = set_code false []
      (set_text_lines
         (question_text_lines (scan pre)
          ++ [join [nl] (opening :: inside ++ [closing])])
         (scan pre)).
Proof.
  intros Hp Ho Hi Hc.
  replace (pre ++ opening :: inside ++ [closing])
    with ((pre ++ opening :: inside) ++ [closing])
    by (rewrite <- app_assoc; reflexivity).
  rewrite scan_app, (scan_unterminated pre inside opening Hp Ho Hi).
  simpl fold_left. rewrite step_close_fence by exact Hc. reflexivity.
Qed.

Lemma closed_fence_is_one_fragment_witness :
  options (scan (fence_block_before ++ lit "```" :: fence_block_code
                   ++ [lit "```"])) = []
  /\ question_text_lines
       (scan (fence_block_before ++ lit "```" :: fence_block_code
                ++ [lit "```"]))
     = question_text_lines (scan fence_block_before)
       ++ [join [nl] (lit "```" :: fence_block_code ++ [lit "```"])].
Proof.
  assert (H1 : in_code_block (scan fence_block_before) = false)
    by (vm_compute; reflexivity).
  assert (H2 : is_fence (lit "```") = true) by (vm_compute; reflexivity).
  assert (H3 : existsb is_fence fence_block_code = false)
    by (vm_compute; reflexivity).
  rewrite (closed_fence_is_one_fragment fence_block_before fence_block_code
             (lit "```") (lit "```") H1 H2 H3 H2).
  split; [vm_compute; reflexivity|reflexivity].
Defined.

(* ------------------------------------------------------------------ *)
(** ** Further properties of the block splitter *)





(* ------------------------------------------------------------------ *)
(** ** The markup translator: newlines *)

Lemma replace_go_cons (old new s : str) (c : ascii) :
  replace_go old new 0 (c :: s)
  = if startswith old (c :: s)
    then new ++ replace_go old new (length old - 1) s
    else c :: replace_go old new 0 s.
Proof. reflexivity. Qed.

Lemma replace_go_Forall (P : ascii -> Prop) (old new : str) (s : str) :
  forall k, Forall P new -> Forall P s -> Forall P (replace_go old new k s).
Proof.
  induction s as [|c s IH]; intros k Hn Hs; [constructor|].
  inversion Hs as [|? ? Hc Hs']; subst.
  destruct k as [|k]; [|now apply IH].
  rewrite replace_go_cons. destruct (startswith old (c :: s)).
  - apply Forall_app. split; [exact Hn|now apply IH].
  - constructor; [exact Hc|now apply IH].
Qed.

Lemma replace_nl_free (new s : str) :
  nl_free new -> nl_free (replace [nl] new s).
Proof.
  intros Hn. unfold replace, nl_free.
  induction s as [|c s IH]; [constructor|].
  rewrite replace_go_cons.
  change (startswith [nl] (c :: s)) with (chr_eqb nl c && true).
  rewrite andb_true_r. change (length [nl] - 1) with 0.
  destruct (chr_eqb nl c) eqn:E.
  - apply Forall_app. split; [exact Hn|exact IH].
  - constructor; [|exact IH]. intros ->.
    unfold chr_eqb in E. now rewrite Ascii.eqb_refl in E.
Qed.

Lemma split_nl_go_free (s : str) :
  forall cur, nl_free cur -> Forall nl_free (split_nl_go cur s).
Proof.
  induction s as [|c s IH]; intros cur Hc; simpl.
  - constructor; [|constructor]. unfold nl_free in *.
    apply Forall_rev. exact Hc.
  - destruct (chr_eqb c nl) eqn:E.
    + constructor; [unfold nl_free in *; now apply Forall_rev|].
      apply IH. constructor.
    + apply IH. constructor; [|exact Hc].
      intros ->. unfold chr_eqb in E. now rewrite Ascii.eqb_refl in E.
Qed.

Lemma join_nl_free (sep : str) (parts : list str) :
  nl_free sep -> Forall nl_free parts -> nl_free (join sep parts).
Proof.
  intros Hs Hp. induction Hp as [|p parts Hx Hp IH]; simpl; [constructor|].
  destruct parts as [|p' parts']; [exact Hx|].
  unfold nl_free in *. apply Forall_app. split; [exact Hx|].
  apply Forall_app. split; [exact Hs|exact IH].
Qed.

Lemma forallb_nl_free (s : str) :
  forallb (fun c => negb (chr_eqb c nl)) s = true -> nl_free s.
Proof.
  unfold nl_free. intros H. rewrite forallb_forall in H.
  apply Forall_forall. intros c Hc ->. specialize (H _ Hc).
  unfold chr_eqb in H. now rewrite Ascii.eqb_refl in H.
Qed.

Lemma code_with_br_nl_free (g : str) : nl_free (code_with_br g).
Proof.
  unfold code_with_br. apply join_nl_free.
  - now apply forallb_nl_free.
  - apply Forall_forall. intros x Hx. apply in_map_iff in Hx as (y & <- & Hy).
    pose proof (split_nl_go_free g [] ltac:(constructor)) as F.
    rewrite Forall_forall in F. specialize (F y Hy).
    apply replace_go_Forall; [|exact F].
    now apply forallb_nl_free.
Qed.

Lemma placeholder_block_nl_free (cbs : list str) (m : list (nat * str)) :
  Forall nl_free cbs -> Forall nl_free (fst (replace_code_block cbs m)).
Proof.
  intros H. unfold replace_code_block. cbn [fst]. apply Forall_app.
  split; [exact H|]. constructor; [|constructor].
  unfold nl_free. apply Forall_app. split.
  - now apply forallb_nl_free.
  - apply Forall_app. split; [apply code_with_br_nl_free|].
    now apply forallb_nl_free.
Qed.

(** What the replacement function keeps true of its state stays true
    through a substitution. *)
Lemma sub_go_state {St : Type} (r : regex)
    (repl : St -> list (nat * str) -> St * str) (Inv : St -> Prop) :
  (forall st m, Inv st -> Inv (fst (repl st m))) ->
  forall a st b k, Inv st -> Inv (fst (sub_go r repl st b a k)).
Proof.
  intros Hr. induction a as [|c a IH]; intros st b k Hi; simpl; [exact Hi|].
  destruct k as [|k]; [|now apply IH].
  destruct (exec r b (c :: a)) as [s'|].
  - destruct (span b s') as [|j].
    + specialize (IH st (c :: b) 0 Hi).
      destruct (sub_go r repl st (c :: b) a 0). exact IH.
    + specialize (Hr st (caps s') Hi).
      destruct (repl st (caps s')) as [st1 t]. simpl in Hr.
      specialize (IH st1 (c :: b) j Hr).
      destruct (sub_go r repl st1 (c :: b) a j). exact IH.
  - specialize (IH st (c :: b) 0 Hi).
    destruct (sub_go r repl st (c :: b) a 0). exact IH.
Qed.

Lemma restore_nl_free (cbs : list str) :
  forall i result,
    Forall nl_free cbs -> nl_free result -> nl_free (restore i cbs result).
Proof.
  induction cbs as [|cb cbs IH]; intros i result Hc Hr; simpl; [exact Hr|].
  inversion Hc as [|? ? Hcb Hc']; subst.
  apply IH; [exact Hc'|]. now apply replace_go_Forall.
Qed.

(** Newlines.  The translated text never contains a newline: outside code
    blocks every newline becomes a line-break tag, inside them the lines
    are joined by that tag, and restoring the code blocks brings none
    back. *)
Theorem format_question_text_no_newline (text : str) :
  ~ In nl (format_question_text text).
Proof.
  assert (F : nl_free (format_question_text text)).
  { unfold format_question_text.
    pose proof (sub_go_state re_fence replace_code_block (Forall nl_free)
                  placeholder_block_nl_free text [] [] 0 ltac:(constructor))
      as S.
    unfold re_sub_st.
    destruct (sub_go re_fence replace_code_block [] [] text 0) as [cbs res].
    simpl in S. apply restore_nl_free; [exact S|].
    apply replace_nl_free. now apply forallb_nl_free. }
  unfold nl_free in F. rewrite Forall_forall in F.
  intros H. now apply (F nl H).
Qed.

(* ------------------------------------------------------------------ *)
(** ** The markup translator: text without markers *)

(** Text none of whose characters can start a match is left as it is. *)
Lemma sub_go_untouched {St : Type} (r : regex)
    (repl : St -> list (nat * str) -> St * str) (st : St) (u : str) :
  forall b,
    (forall c, In c u -> forall b' a', exec r b' (c :: a') = None) ->
    sub_go r repl st b u 0 = (st, u).
Proof.
  induction u as [|c u IH]; intros b H; [reflexivity|].
  rewrite sub_go_nomatch by (apply H; now left).
  rewrite IH by (intros d Hd; apply H; now right). reflexivity.
Qed.

Lemma exec_fence_no_tick (b a : str) (c : ascii) :
  is_tick c = false -> exec re_fence b (c :: a) = None.
Proof.
  unfold is_tick. intros H. unfold exec, re_fence. simpl Seq. simpl Lit.
  cbn [run aft]. unfold is_chr at 1. now rewrite H.
Qed.

Lemma exec_bold_no_star (b a : str) (c : ascii) :
  is_star c = false -> exec re_bold b (c :: a) = None.
Proof.
  unfold is_star. intros H. unfold exec, re_bold. simpl Seq. simpl Lit.
  cbn [run aft]. unfold is_chr at 1. now rewrite H.
Qed.

Lemma exec_code_no_tick (b a : str) (c : ascii) :
  is_tick c = false -> exec re_code b (c :: a) = None.
Proof.
  unfold is_tick. intros H. unfold exec, re_code. simpl Seq. simpl Lit.
  cbn [run aft]. unfold is_chr at 1. now rewrite H.
Qed.

Lemma plain_str_chars (s : str) (c : ascii) :
  plain_str s = true -> In c s -> is_star c = false /\ is_tick c = false.
Proof.
  unfold plain_str. rewrite forallb_forall. intros H Hc.
  specialize (H c Hc). unfold is_marker in H.
  apply negb_true_iff, orb_false_iff in H. exact H.
Qed.

(** Plain text.  A text without asterisks and backticks is translated by
    converting its newlines to line-break tags and nothing else: no code
    block is cut out, no container is added. *)
Theorem format_question_text_plain (text : str) :
  plain_str text = true ->
  format_question_text text = replace [nl] (lit "<br>") text.
Proof.
  intros H. unfold format_question_text, re_sub_st, re_sub, re_sub_st.
  rewrite (sub_go_untouched re_fence)
    by (intros c Hc b' a'; apply exec_fence_no_tick;
        now apply (plain_str_chars text)).
  rewrite (sub_go_untouched re_bold)
    by (intros c Hc b' a'; apply exec_bold_no_star;
        now apply (plain_str_chars text)).
  cbn [snd].
  rewrite (sub_go_untouched re_code)
    by (intros c Hc b' a'; apply exec_code_no_tick;
        now apply (plain_str_chars text)).
  reflexivity.
Qed.

Lemma format_question_text_plain_witness :
  format_question_text (lit "Line 1" ++ [nl] ++ lit "Line 2")
  = lit "Line 1<br>Line 2".
Proof.
  assert (H : plain_str (lit "Line 1" ++ [nl] ++ lit "Line 2") = true)
    by (vm_compute; reflexivity).
  rewrite (format_question_text_plain _ H). vm_compute. reflexivity.
Defined.

(** *** The patterns on well-formed text *)

Lemma run_Lit_app {A : Type} (L : str) (k : mstate -> option A) :
  forall b a cs,
    run (Lit L) (MState b (L ++ a) cs) k = k (MState (rev L ++ b) a cs).
Proof.
  induction L as [|c L IH]; intros b a cs; simpl; [reflexivity|].
  unfold is_chr, chr_eqb. rewrite Ascii.eqb_refl.
  rewrite IH, <- app_assoc. reflexivity.
Qed.

(** A pattern [L(c+)L]: opening text, a non-empty stretch of a class that
    the closing text ends, closing text. *)
Lemma exec_delimited (L s a b : str) (p : ascii -> bool) :
  s <> [] -> forallb p s = true -> stops p (L ++ a) = true ->
  exec (Seq [Lit L; Grp 1 (Plus p); Lit L]) b (L ++ s ++ L ++ a)
  = Some (MState (rev L ++ rev s ++ rev L ++ b) a [(1, s)]).
Proof.
  intros Hs Hp Hstop. unfold exec. cbn [Seq run Plus].
  rewrite run_Lit_app. cbn beta.
  destruct s as [|c s]; [congruence|].
  simpl in Hp. apply andb_true_iff in Hp as [Hc Hp].
  cbn [run aft bef caps app]. rewrite Hc.
  apply star_greedy_all; [exact Hp|exact Hstop|].
  cbn [aft bef caps].
  rewrite run_Lit_app.
  change (c :: rev L ++ b) with (rev [c] ++ rev L ++ b).
  rewrite (app_assoc (rev s)), <- rev_app_distr.
  change ([c] ++ s) with (c :: s).
  rewrite consumed_app. reflexivity.
Qed.

(** A stretch of characters none of which can start a match is passed on. *)
Lemma sub_go_pass {St : Type} (r : regex)
    (repl : St -> list (nat * str) -> St * str) (st : St) (u : str) :
  forall b a,
    (forall c, In c u -> forall b' a', exec r b' (c :: a') = None) ->
    sub_go r repl st b (u ++ a) 0
    = prepend u (sub_go r repl st (rev u ++ b) a 0).
Proof.
  intros b a H. apply sub_go_clear.
  intros u1 c u2 E. apply H. rewrite E. apply in_elt.
Qed.

Lemma plain_str_no_star (s : str) (c : ascii) :
  plain_str s = true -> In c s -> is_star c = false.
Proof. intros H Hc. now destruct (plain_str_chars s c H Hc). Qed.

Lemma plain_str_no_tick (s : str) (c : ascii) :
  plain_str s = true -> In c s -> is_tick c = false.
Proof. intros H Hc. now destruct (plain_str_chars s c H Hc). Qed.

Lemma plain_forallb_not_star (s : str) :
  plain_str s = true -> forallb (not_chr "*") s = true.
Proof.
  intros H. apply forallb_forall. intros c Hc.
  unfold not_chr. apply negb_true_iff. exact (plain_str_no_star s c H Hc).
Qed.

Lemma plain_forallb_not_tick (s : str) :
  plain_str s = true -> forallb (not_chr "`") s = true.
Proof.
  intros H. apply forallb_forall. intros c Hc.
  unfold not_chr. apply negb_true_iff. exact (plain_str_no_tick s c H Hc).
Qed.

(** The two scanning steps with the position left open. *)
Lemma sub_go_pass_ex {St : Type} (r : regex)
    (repl : St -> list (nat * str) -> St * str) (st : St) (u b a : str) :
  (forall c, In c u -> forall b' a', exec r b' (c :: a') = None) ->
  exists b', sub_go r repl st b (u ++ a) 0
             = prepend u (sub_go r repl st b' a 0).
Proof. intros H. eexists. now apply sub_go_pass. Qed.

Lemma sub_go_match_ex {St : Type} (r : regex)
    (repl : St -> list (nat * str) -> St * str) (st : St) (b u a : str)
    (c : ascii) (s' : mstate) :
  exec r b (c :: u ++ a) = Some s' ->
  span b s' = S (length u) ->
  exists b', sub_go r repl st b (c :: u ++ a) 0
             = prepend (snd (repl st (caps s')))
                 (sub_go r repl (fst (repl st (caps s'))) b' a 0).
Proof. intros H Hs. eexists. now apply sub_go_match. Qed.

Lemma span_app (t b a : str) (cs : list (nat * str)) :
  span b (MState (t ++ b) a cs) = length t.
Proof. unfold span. simpl. rewrite length_app. lia. Qed.

(** The emphasis pass over a list of well-formed pieces. *)
Lemma bold_pass_segs {St : Type} (repl : St -> list (nat * str) -> St * str)
    (gs : list seg) :
  (forall st m, repl st m = (st, bold_repl m)) ->
  forall st b a,
    forallb wf_seg gs = true ->
    exists b', sub_go re_bold repl st b (render gs ++ a) 0
               = prepend (bold_done gs) (sub_go re_bold repl st b' a 0).
Proof.
  intros Hr. induction gs as [|g gs IH]; intros st b a Hwf.
  - exists b. unfold prepend. simpl. now destruct (sub_go re_bold repl st b a 0).
  - simpl in Hwf. apply andb_true_iff in Hwf as [Hg Hwf].
    change (render (g :: gs)) with (render_seg g ++ render gs).
    change (bold_done (g :: gs)) with (bold_done_seg g ++ bold_done gs).
    rewrite <- app_assoc.
    destruct g as [c|s|s]; simpl in Hg.
    + apply negb_true_iff, orb_false_iff in Hg as [Hs _].
      change (render_seg (Plain c) ++ render gs ++ a)
        with (c :: render gs ++ a).
      rewrite sub_go_nomatch by now apply exec_bold_no_star.
      destruct (IH st (c :: b) a Hwf) as (b' & ->). exists b'.
      now rewrite prepend_prepend.
    + apply andb_true_iff in Hg as [Hne Hp].
      apply negb_true_iff, is_empty_false in Hne.
      pose proof (exec_delimited (lit "**") s (render gs ++ a) b
                    (not_chr "*") Hne (plain_forallb_not_star s Hp)
                    eq_refl) as E.
      change (Seq [Lit (lit "**"); Grp 1 (Plus (not_chr "*")); Lit (lit "**")])
        with re_bold in E.
      rewrite (app_assoc s) in E.
      change (lit "**" ++ (s ++ lit "**") ++ render gs ++ a)
        with ("*"%char :: ("*"%char :: s ++ lit "**") ++ render gs ++ a) in E.
      change (render_seg (Bold s) ++ render gs ++ a)
        with ("*"%char :: ("*"%char :: s ++ lit "**") ++ render gs ++ a).
      destruct (sub_go_match_ex re_bold repl st b _ _ _ _ E) as (b1 & ->).
      * rewrite !app_assoc, span_app, <- !app_assoc.
        rewrite !length_app, !length_rev. simpl. rewrite length_app. simpl. lia.
      * rewrite Hr. cbn [fst snd caps].
        destruct (IH st b1 a Hwf) as (b' & ->). exists b'.
        rewrite prepend_prepend. reflexivity.
    + apply andb_true_iff in Hg as [Hne Hp].
      destruct (sub_go_pass_ex re_bold repl st (render_seg (Code s)) b
                  (render gs ++ a)) as (b1 & ->).
      * intros c Hc b' a'. apply exec_bold_no_star.
        simpl in Hc. destruct Hc as [<-|Hc]; [reflexivity|].
        apply in_app_or in Hc as [Hc|Hc].
        -- exact (plain_str_no_star s c Hp Hc).
        -- destruct Hc as [<-|[]]. reflexivity.
      * destruct (IH st b1 a Hwf) as (b' & ->). exists b'.
        now rewrite prepend_prepend.
Qed.

(** The inline-code pass over the result of the emphasis pass. *)
Lemma code_pass_segs {St : Type} (repl : St -> list (nat * str) -> St * str)
    (gs : list seg) :
  (forall st m, repl st m = (st, code_repl m)) ->
  forall st b a,
    forallb wf_seg gs = true ->
    exists b', sub_go re_code repl st b (bold_done gs ++ a) 0
               = prepend (markup gs) (sub_go re_code repl st b' a 0).
Proof.
  intros Hr. induction gs as [|g gs IH]; intros st b a Hwf.
  - exists b. unfold prepend. simpl. now destruct (sub_go re_code repl st b a 0).
  - simpl in Hwf. apply andb_true_iff in Hwf as [Hg Hwf].
    change (bold_done (g :: gs)) with (bold_done_seg g ++ bold_done gs).
    change (markup (g :: gs)) with (markup_seg g ++ markup gs).
    rewrite <- app_assoc.
    destruct g as [c|s|s]; simpl in Hg.
    + apply negb_true_iff, orb_false_iff in Hg as [_ Ht].
      change (bold_done_seg (Plain c) ++ bold_done gs ++ a)
        with (c :: bold_done gs ++ a).
      rewrite sub_go_nomatch by now apply exec_code_no_tick.
      destruct (IH st (c :: b) a Hwf) as (b' & ->). exists b'.
      now rewrite prepend_prepend.
    + apply andb_true_iff in Hg as [Hne Hp].
      destruct (sub_go_pass_ex re_code repl st (bold_done_seg (Bold s)) b
                  (bold_done gs ++ a)) as (b1 & ->).
      * intros c Hc b' a'. apply exec_code_no_tick.
        unfold bold_done_seg in Hc.
        apply in_app_or in Hc as [Hc|Hc].
        -- vm_compute in Hc.
           repeat (destruct Hc as [<-|Hc]; [reflexivity|]). destruct Hc.
        -- apply in_app_or in Hc as [Hc|Hc].
           ++ exact (plain_str_no_tick s c Hp Hc).
           ++ vm_compute in Hc.
              repeat (destruct Hc as [<-|Hc]; [reflexivity|]). destruct Hc.
      * destruct (IH st b1 a Hwf) as (b' & ->). exists b'.
        now rewrite prepend_prepend.
    + apply andb_true_iff in Hg as [Hne Hp].
      apply negb_true_iff, is_empty_false in Hne.
      pose proof (exec_delimited (lit "`") s (bold_done gs ++ a) b
                    (not_chr "`") Hne (plain_forallb_not_tick s Hp)
                    eq_refl) as E.
      change (Seq [Lit (lit "`"); Grp 1 (Plus (not_chr "`")); Lit (lit "`")])
        with re_code in E.
      rewrite (app_assoc s) in E.
      change (lit "`" ++ (s ++ lit "`") ++ bold_done gs ++ a)
        with ("`"%char :: (s ++ lit "`") ++ bold_done gs ++ a) in E.
      change (bold_done_seg (Code s) ++ bold_done gs ++ a)
        with ("`"%char :: (s ++ lit "`") ++ bold_done gs ++ a).
      destruct (sub_go_match_ex re_code repl st b _ _ _ _ E) as (b1 & ->).
      * rewrite !app_assoc, span_app, <- !app_assoc.
        rewrite !length_app, !length_rev. simpl. lia.
      * rewrite Hr. cbn [fst snd caps].
        destruct (IH st b1 a Hwf) as (b' & ->). exists b'.
        rewrite prepend_prepend. reflexivity.
Qed.

(** *** The fence pattern *)

Lemma chr_eqb_sym (a b : ascii) : chr_eqb a b = chr_eqb b a.
Proof. unfold chr_eqb. apply Ascii.eqb_sym. Qed.

Lemma run_Lit_fail {A : Type} (L : str) (k : mstate -> option A) :
  forall b a cs,
    startswith L a = false -> run (Lit L) (MState b a cs) k = None.
Proof.
  induction L as [|c L IH]; intros b a cs H; [discriminate|].
  destruct a as [|d a]; [reflexivity|].
  simpl in H. cbn [Lit run aft bef caps]. unfold is_chr.
  rewrite chr_eqb_sym. destruct (chr_eqb c d); [|reflexivity].
  now apply IH.
Qed.

Lemma exec_fence_none (b a : str) :
  startswith (lit "```") a = false -> exec re_fence b a = None.
Proof.
  intros H. unfold exec, re_fence. cbn [Seq run].
  now apply run_Lit_fail.
Qed.

Lemma contains_suffix (p u v : str) :
  contains p (u ++ v) = false -> contains p v = false.
Proof.
  induction u as [|c u IH]; intros H; [exact H|].
  simpl in H. apply orb_false_iff in H as [_ H]. now apply IH.
Qed.

Lemma contains_startswith (p s : str) :
  contains p s = false -> startswith p s = false.
Proof. destruct s; simpl; intros H; now apply orb_false_iff in H as [H _]. Qed.

(** Inside fence-free code no closing delimiter can be read early. *)
Lemma fence_free_inside (code post w1 w2 : str) (c : ascii) :
  fence_free code = true -> code = w1 ++ c :: w2 ->
  startswith (lit "```") (c :: w2 ++ lit "```" ++ post) = false.
Proof.
  unfold fence_free. intros H E. apply negb_true_iff in H. subst code.
  rewrite <- app_assoc in H. apply contains_suffix, contains_startswith in H.
  destruct w2 as [|c2 [|c3 w2]]; simpl in *; exact H.
Qed.

(** The equations of [run], one per construct. *)
Lemma run_Cat {A : Type} (r1 r2 : regex) (s : mstate) (k : mstate -> option A) :
  run (Cat r1 r2) s k = run r1 s (fun s' => run r2 s' k).
Proof. reflexivity. Qed.

Lemma run_Alt {A : Type} (r1 r2 : regex) (s : mstate) (k : mstate -> option A) :
  run (Alt r1 r2) s k
  = match run r1 s k with Some x => Some x | None => run r2 s k end.
Proof. reflexivity. Qed.

Lemma run_Chr_cons {A : Type} (p : ascii -> bool) (b a : str) (c : ascii)
    (cs : list (nat * str)) (k : mstate -> option A) :
  run (Chr p) (MState b (c :: a) cs) k
  = if p c then k (MState (c :: b) a cs) else None.
Proof. reflexivity. Qed.

Lemma run_Grp {A : Type} (n : nat) (r : regex) (s : mstate)
    (k : mstate -> option A) :
  run (Grp n r) s k
  = run r s (fun s' =>
      k (MState (bef s') (aft s') ((n, consumed s s') :: caps s'))).
Proof. reflexivity. Qed.

(** The optional language tag: all of it is taken when the rest of the
    pattern then matches. *)
Lemma run_opt_word {A : Type} (lang X b0 : str) (k : mstate -> option A)
    (x : A) :
  forallb is_word lang = true ->
  k (MState (rev lang ++ b0) (nl :: X) []) = Some x ->
  run (Opt (Plus is_word)) (MState b0 (lang ++ nl :: X) []) k = Some x.
Proof.
  intros Hl Hk. unfold Opt, Plus. rewrite run_Alt, run_Cat.
  destruct lang as [|l lang].
  - simpl app. rewrite run_Chr_cons.
    replace (is_word nl) with false by reflexivity. exact Hk.
  - simpl in Hl. apply andb_true_iff in Hl as [Hl0 Hl].
    simpl app. rewrite run_Chr_cons, Hl0.
    change (run (Star is_word) (MState (l :: b0) (lang ++ nl :: X) []) k)
      with (star_greedy is_word k [] (l :: b0) (lang ++ nl :: X)).
    rewrite (star_greedy_all is_word k [] lang (nl :: X) x (l :: b0) Hl eq_refl);
      [reflexivity|].
    simpl in Hk. now rewrite <- app_assoc in Hk.
Qed.

(** The pattern after the language tag, on the newline that ends the
    opening line. *)
Lemma run_fence_body (code post b1 : str) :
  fence_free code = true ->
  run (Seq [Opt (Chr (is_chr nl)); Grp 1 (StarLazy is_any); Lit (lit "```")])
    (MState b1 (nl :: code ++ lit "```" ++ post) []) (fun s => Some s)
  = Some (MState (rev (lit "```") ++ rev code ++ nl :: b1) post [(1, code)]).
Proof.
  intros Hc. cbn [Seq]. unfold Opt. rewrite run_Cat, run_Alt, run_Chr_cons.
  unfold is_chr at 1. unfold chr_eqb at 1. rewrite Ascii.eqb_refl.
  rewrite run_Cat, run_Grp. cbn [bef aft caps].
  change (run (StarLazy is_any)
            (MState (nl :: b1) (code ++ lit "```" ++ post) []) ?k)
    with (star_lazy is_any k [] (nl :: b1) (code ++ lit "```" ++ post)).
  erewrite star_lazy_first.
  - reflexivity.
  - apply forallb_forall. reflexivity.
  - intros w1 c w2 E. cbv beta. cbn [bef aft caps].
    rewrite run_Cat. apply run_Lit_fail.
    exact (fence_free_inside code post w1 w2 c Hc E).
  - cbv beta. cbn [bef aft caps]. rewrite run_Cat, run_Lit_app.
    rewrite consumed_app. reflexivity.
Qed.

(** A properly fenced region is matched whole; its group is the code. *)
Lemma exec_fence_match (lang code post b : str) :
  forallb is_word lang = true -> fence_free code = true ->
  exec re_fence b (fenced lang code ++ post)
  = Some (MState (rev (fenced lang code) ++ b) post [(1, code)]).
Proof.
  intros Hl Hc. unfold exec, re_fence, fenced.
  change (Seq [Lit (lit "```"); Opt (Plus is_word); Opt (Chr (is_chr nl));
               Grp 1 (StarLazy is_any); Lit (lit "```")])
    with (Cat (Lit (lit "```"))
            (Cat (Opt (Plus is_word))
               (Seq [Opt (Chr (is_chr nl)); Grp 1 (StarLazy is_any);
                     Lit (lit "```")]))).
  rewrite <- !app_assoc. rewrite run_Cat, run_Lit_app. cbv beta.
  rewrite run_Cat.
  rewrite (run_opt_word lang (code ++ lit "```" ++ post) _ _ _ Hl
             (run_fence_body code post _ Hc)).
  f_equal. f_equal. rewrite !rev_app_distr. simpl. rewrite <- !app_assoc.
  reflexivity.
Qed.

Lemma startswith_cons_false (p s : str) (x c : ascii) :
  chr_eqb c x = false -> startswith (x :: p) (c :: s) = false.
Proof. intros H. simpl. now rewrite chr_eqb_sym, H. Qed.

(** Well-formed pieces never start with two backticks. *)
Lemma render_no_two_ticks (gs : list seg) (a : str) :
  forallb wf_seg gs = true -> gs <> [] ->
  startswith (lit "``") (render gs ++ a) = false.
Proof.
  intros Hwf Hne. destruct gs as [|g gs]; [congruence|].
  simpl in Hwf. apply andb_true_iff in Hwf as [Hg _].
  change (render (g :: gs)) with (render_seg g ++ render gs).
  rewrite <- app_assoc. destruct g as [c|s|s]; simpl in Hg.
  - apply negb_true_iff, orb_false_iff in Hg as [_ Ht].
    now apply startswith_cons_false.
  - reflexivity.
  - apply andb_true_iff in Hg as [Hn Hp].
    destruct s as [|c s]; [discriminate Hn|].
    assert (Ht : is_tick c = false)
      by (apply (plain_str_no_tick (c :: s)); [exact Hp|now left]).
    change (render_seg (Code (c :: s)) ++ render gs ++ a)
      with ("`"%char :: c :: (s ++ lit "`") ++ render gs ++ a).
    change (startswith (lit "``") ("`"%char :: c :: (s ++ lit "`") ++ render gs ++ a))
      with (chr_eqb "`" "`" && startswith (lit "`") (c :: (s ++ lit "`") ++ render gs ++ a)).
    match goal with
    | |- context [startswith (lit "`") (c :: ?X)] =>
        rewrite (startswith_cons_false [] X "`"%char c Ht
                 : startswith (lit "`") (c :: X) = false)
    end.
    apply andb_false_r.
Qed.

(** The fence pass finds nothing in well-formed pieces, provided no
    inline-code pair stands directly before two more backticks. *)
Lemma fence_pass_segs {St : Type} (repl : St -> list (nat * str) -> St * str)
    (gs : list seg) :
  forall st b a,
    forallb wf_seg gs = true ->
    (ends_with_code gs = true -> startswith (lit "``") a = false) ->
    exists b', sub_go re_fence repl st b (render gs ++ a) 0
               = prepend (render gs) (sub_go re_fence repl st b' a 0).
Proof.
  induction gs as [|g gs IH]; intros st b a Hwf He.
  - exists b. unfold prepend. simpl.
    now destruct (sub_go re_fence repl st b a 0).
  - pose proof Hwf as Hwf0. simpl in Hwf.
    apply andb_true_iff in Hwf as [Hg Hwf].
    assert (He' : ends_with_code gs = true -> startswith (lit "``") a = false).
    { intros H. apply He. destruct gs as [|g' gs']; [discriminate H|].
      destruct g; exact H. }
    change (render (g :: gs)) with (render_seg g ++ render gs).
    rewrite <- app_assoc.
    destruct g as [c|s|s]; simpl in Hg.
    + apply negb_true_iff, orb_false_iff in Hg as [_ Ht].
      change (render_seg (Plain c) ++ render gs ++ a)
        with (c :: render gs ++ a).
      rewrite sub_go_nomatch by now apply exec_fence_no_tick.
      destruct (IH st (c :: b) a Hwf He') as (b' & ->). exists b'.
      now rewrite prepend_prepend.
    + apply andb_true_iff in Hg as [Hne Hp].
      destruct (sub_go_pass_ex re_fence repl st (render_seg (Bold s)) b
                  (render gs ++ a)) as (b1 & ->).
      * intros c Hc b' a'. apply exec_fence_no_tick.
        simpl in Hc. destruct Hc as [<-|[<-|Hc]]; try reflexivity.
        apply in_app_or in Hc as [Hc|Hc].
        -- exact (plain_str_no_tick s c Hp Hc).
        -- destruct Hc as [<-|[<-|[]]]; reflexivity.
      * destruct (IH st b1 a Hwf He') as (b' & ->). exists b'.
        now rewrite prepend_prepend.
    + apply andb_true_iff in Hg as [Hne Hp].
      destruct s as [|c s]; [discriminate Hne|].
      assert (Ht : is_tick c = false)
        by (apply (plain_str_no_tick (c :: s)); [exact Hp|now left]).
      change (render_seg (Code (c :: s)) ++ render gs ++ a)
        with ("`"%char :: ((c :: s) ++ lit "`") ++ render gs ++ a).
      rewrite <- (app_assoc (c :: s)).
      change (lit "`" ++ render gs ++ a) with ("`"%char :: render gs ++ a).
      rewrite sub_go_nomatch.
      2:{ apply exec_fence_none.
          change (startswith (lit "```")
                    ("`"%char :: (c :: s) ++ "`"%char :: render gs ++ a))
            with (chr_eqb "`" "`"
                  && startswith (lit "``") (c :: s ++ "`"%char :: render gs ++ a)).
          match goal with
          | |- context [startswith (lit "``") (c :: ?X)] =>
              rewrite (startswith_cons_false ["`"%char] X "`"%char c Ht
                       : startswith (lit "``") (c :: X) = false)
          end.
          apply andb_false_r. }
      destruct (sub_go_pass_ex re_fence repl st (c :: s) ("`"%char :: b)
                  ("`"%char :: render gs ++ a)) as (b1 & ->).
      { intros d Hd b' a'. apply exec_fence_no_tick.
        exact (plain_str_no_tick (c :: s) d Hp Hd). }
      rewrite sub_go_nomatch.
      2:{ apply exec_fence_none.
          change (startswith (lit "```") ("`"%char :: render gs ++ a))
            with (chr_eqb "`" "`" && startswith (lit "``") (render gs ++ a)).
          destruct gs as [|g' gs'].
          - simpl. apply He. reflexivity.
          - rewrite render_no_two_ticks; [reflexivity|exact Hwf|discriminate]. }
      destruct (IH st ("`"%char :: b1) a Hwf He') as (b' & ->). exists b'.
      rewrite !prepend_prepend.
      f_equal; simpl; rewrite <- ?app_assoc; reflexivity.
Qed.

(** *** Newline conversion and placeholders *)

Lemma replace_nl_app (new x y : str) :
  replace [nl] new (x ++ y) = replace [nl] new x ++ replace [nl] new y.
Proof.
  unfold replace. induction x as [|c x IH]; [reflexivity|].
  change ((c :: x) ++ y) with (c :: x ++ y). rewrite !replace_go_cons.
  change (startswith [nl] (c :: x ++ y)) with (chr_eqb nl c && true).
  change (startswith [nl] (c :: x)) with (chr_eqb nl c && true).
  change (length [nl] - 1) with 0.
  destruct (chr_eqb nl c && true); rewrite IH.
  - now rewrite app_assoc.
  - reflexivity.
Qed.

Lemma startswith_app_l (p q s : str) :
  startswith (p ++ q) s = true -> startswith p s = true.
Proof.
  revert s. induction p as [|c p IH]; intros s H; [reflexivity|].
  destruct s as [|d s]; [discriminate H|].
  simpl in *. apply andb_true_iff in H as [-> H]. now apply IH.
Qed.

(** The placeholder cannot begin inside text that does not contain its
    first thirteen characters, even when the placeholder follows. *)
Lemma placeholder_not_inside (u X : str) :
  u <> [] -> startswith (lit "__CODE_BLOCK_") u = false ->
  startswith (placeholder 0) (u ++ placeholder 0 ++ X) = false.
Proof.
  change (placeholder 0) with (lit "__CODE_BLOCK_0__").
  intros Hne. revert Hne.
  do 13 (destruct u as [|? u];
         [try congruence; intros _ _; cbn -[chr_eqb];
          repeat match goal with
                 | |- context [chr_eqb ?x ?c] =>
                     is_var c; destruct (chr_eqb x c); [|reflexivity]
                 end; reflexivity|]).
  intros _. cbn -[chr_eqb].
  repeat match goal with
         | |- context [chr_eqb ?x ?c] =>
             is_var c; destruct (chr_eqb x c); [|intros; reflexivity]
         end.
  intros H. discriminate H.
Qed.

Lemma startswith_self_app (p x : str) : startswith p (p ++ x) = true.
Proof.
  induction p as [|c p IH]; [reflexivity|].
  simpl. unfold chr_eqb at 1. now rewrite Ascii.eqb_refl.
Qed.

Lemma replace_go_skip (old new u : str) :
  forall x, replace_go old new (length u) (u ++ x) = replace_go old new 0 x.
Proof.
  induction u as [|c u IH]; intros x; simpl.
  - destruct x; reflexivity.
  - apply IH.
Qed.

Lemma placeholder_not_at (s : str) :
  startswith (lit "__CODE_BLOCK_") s = false ->
  startswith (placeholder 0) s = false.
Proof.
  intros H. destruct (startswith (placeholder 0) s) eqn:E; [|reflexivity].
  change (placeholder 0) with (lit "__CODE_BLOCK_" ++ lit "0__") in E.
  apply startswith_app_l in E. congruence.
Qed.

Lemma replace_placeholder_absent (new x : str) :
  no_placeholder x = true -> replace_go (placeholder 0) new 0 x = x.
Proof.
  unfold no_placeholder. intros H. apply negb_true_iff in H.
  induction x as [|c x IH]; [reflexivity|].
  rewrite replace_go_cons.
  rewrite placeholder_not_at by now apply contains_startswith.
  f_equal. apply IH. now apply (contains_suffix _ [c]).
Qed.

(** Restoring the only code block: the placeholder is found where it was
    put, and nowhere else, when the text around it does not contain the
    placeholder prefix. *)
Lemma restore_single (h1 h2 new : str) :
  no_placeholder h1 = true -> no_placeholder h2 = true ->
  replace (placeholder 0) new (h1 ++ placeholder 0 ++ h2) = h1 ++ new ++ h2.
Proof.
  unfold replace. intros H1 H2.
  unfold no_placeholder in H1. apply negb_true_iff in H1.
  induction h1 as [|c h1 IH].
  - change ([] ++ placeholder 0 ++ h2)
      with ("_"%char :: lit "_CODE_BLOCK_0__" ++ h2).
    rewrite replace_go_cons.
    change ("_"%char :: lit "_CODE_BLOCK_0__" ++ h2)
      with (placeholder 0 ++ h2) at 1.
    rewrite startswith_self_app.
    change (length (placeholder 0) - 1) with (length (lit "_CODE_BLOCK_0__")).
    rewrite replace_go_skip, replace_placeholder_absent by exact H2.
    reflexivity.
  - change ((c :: h1) ++ placeholder 0 ++ h2)
      with (c :: h1 ++ placeholder 0 ++ h2).
    rewrite replace_go_cons.
    change (c :: h1 ++ placeholder 0 ++ h2)
      with ((c :: h1) ++ placeholder 0 ++ h2) at 1.
    rewrite placeholder_not_inside;
      [|discriminate|now apply contains_startswith].
    simpl. f_equal. apply IH. now apply (contains_suffix _ [c]).
Qed.

(** *** The passes on a whole text *)

Lemma sub_go_nil {St : Type} (r : regex)
    (repl : St -> list (nat * str) -> St * str) (st : St) (b : str) :
  sub_go r repl st b [] 0 = (st, []).
Proof. reflexivity. Qed.

Lemma placeholder_no_marker (c : ascii) :
  In c (placeholder 0) -> is_star c = false /\ is_tick c = false.
Proof.
  intros H. vm_compute in H.
  repeat (destruct H as [<-|H]; [split; reflexivity|]). destruct H.
Qed.

Lemma fence_pass_text (segs1 segs2 : list seg) (lang code : str) :
  forallb wf_seg segs1 = true -> forallb wf_seg segs2 = true ->
  ends_with_code segs1 = false ->
  forallb is_word lang = true -> fence_free code = true ->
  re_sub_st re_fence replace_code_block []
    (render segs1 ++ fenced lang code ++ render segs2)
  = ([div_open ++ code_with_br code ++ div_close],
     render segs1 ++ placeholder 0 ++ render segs2).
Proof.
  intros W1 W2 He Hl Hc. unfold re_sub_st.
  destruct (fence_pass_segs replace_code_block segs1 [] []
              (fenced lang code ++ render segs2) W1) as (b1 & ->).
  { rewrite He. discriminate. }
  pose proof (exec_fence_match lang code (render segs2) b1 Hl Hc) as E.
  assert (F : fenced lang code ++ render segs2
              = "`"%char :: (lit "``" ++ lang ++ [nl] ++ code ++ lit "```")
                ++ render segs2) by reflexivity.
  rewrite F in E |- *.
  destruct (sub_go_match_ex re_fence replace_code_block [] b1 _ _ _ _ E)
    as (b2 & ->).
  { rewrite span_app, length_rev. reflexivity. }
  cbn [caps].
  destruct (fence_pass_segs replace_code_block segs2
              (fst (replace_code_block [] [(1, code)])) b2 [] W2)
    as (b3 & G).
  { reflexivity. }
  rewrite app_nil_r in G. rewrite G, sub_go_nil.
  unfold prepend. cbn [fst snd]. rewrite app_nil_r. reflexivity.
Qed.

Lemma bold_pass_text (segs1 segs2 : list seg) :
  forallb wf_seg segs1 = true -> forallb wf_seg segs2 = true ->
  re_sub re_bold bold_repl (render segs1 ++ placeholder 0 ++ render segs2)
  = bold_done segs1 ++ placeholder 0 ++ bold_done segs2.
Proof.
  intros W1 W2. unfold re_sub, re_sub_st.
  destruct (bold_pass_segs (fun (u : unit) cs => (u, bold_repl cs)) segs1
              (fun _ _ => eq_refl) tt [] (placeholder 0 ++ render segs2) W1)
    as (b1 & ->).
  destruct (sub_go_pass_ex re_bold (fun (u : unit) cs => (u, bold_repl cs))
              tt (placeholder 0) b1 (render segs2)) as (b2 & ->).
  { intros c Hc b' a'. apply exec_bold_no_star.
    now destruct (placeholder_no_marker c Hc). }
  destruct (bold_pass_segs (fun (u : unit) cs => (u, bold_repl cs)) segs2
              (fun _ _ => eq_refl) tt b2 [] W2) as (b3 & G).
  rewrite app_nil_r in G. rewrite G, sub_go_nil.
  unfold prepend. cbn [fst snd]. rewrite app_nil_r. reflexivity.
Qed.

Lemma code_pass_text (segs1 segs2 : list seg) :
  forallb wf_seg segs1 = true -> forallb wf_seg segs2 = true ->
  re_sub re_code code_repl (bold_done segs1 ++ placeholder 0 ++ bold_done segs2)
  = markup segs1 ++ placeholder 0 ++ markup segs2.
Proof.
  intros W1 W2. unfold re_sub, re_sub_st.
  destruct (code_pass_segs (fun (u : unit) cs => (u, code_repl cs)) segs1
              (fun _ _ => eq_refl) tt [] (placeholder 0 ++ bold_done segs2) W1)
    as (b1 & ->).
  destruct (sub_go_pass_ex re_code (fun (u : unit) cs => (u, code_repl cs))
              tt (placeholder 0) b1 (bold_done segs2)) as (b2 & ->).
  { intros c Hc b' a'. apply exec_code_no_tick.
    now destruct (placeholder_no_marker c Hc). }
  destruct (code_pass_segs (fun (u : unit) cs => (u, code_repl cs)) segs2
              (fun _ _ => eq_refl) tt b2 [] W2) as (b3 & G).
  rewrite app_nil_r in G. rewrite G, sub_go_nil.
  unfold prepend. cbn [fst snd]. rewrite app_nil_r. reflexivity.
Qed.

(** *** Markers *)

Lemma html_no_marker (gs : list seg) :
  forallb wf_seg gs = true -> Forall (fun c => is_marker c = false) (html gs).
Proof.
  intros W. unfold html, replace. apply replace_go_Forall.
  - apply Forall_forall. intros c Hc. vm_compute in Hc.
    repeat (destruct Hc as [<-|Hc]; [reflexivity|]). destruct Hc.
  - induction gs as [|g gs IH]; [constructor|].
    simpl in W. apply andb_true_iff in W as [Hg W].
    change (markup (g :: gs)) with (markup_seg g ++ markup gs).
    apply Forall_app. split; [|now apply IH].
    assert (P : forall s, plain_str s = true ->
                          Forall (fun c => is_marker c = false) s).
    { intros s Hs. apply Forall_forall. intros c Hc.
      destruct (plain_str_chars s c Hs Hc) as [A B].
      unfold is_marker. now rewrite A, B. }
    assert (T : forall t, forallb (fun c => negb (is_marker c)) (lit t) = true ->
                          Forall (fun c => is_marker c = false) (lit t)).
    { intros t Ht. now apply P. }
    destruct g as [c|s|s]; simpl in Hg.
    + constructor; [now apply negb_true_iff|constructor].
    + apply andb_true_iff in Hg as [_ Hp]. unfold markup_seg.
      apply Forall_app. split; [now apply T|].
      apply Forall_app. split; [now apply P|now apply T].
    + apply andb_true_iff in Hg as [_ Hp]. unfold markup_seg.
      apply Forall_app. split; [now apply T|].
      apply Forall_app. split; [now apply P|now apply T].
Qed.

Lemma filter_replace_chr (m : ascii -> bool) (x : ascii) (new s : str) :
  m x = false -> filter m new = [] ->
  filter m (replace [x] new s) = filter m s.
Proof.
  intros Hx Hn. unfold replace. induction s as [|c s IH]; [reflexivity|].
  rewrite replace_go_cons.
  change (startswith [x] (c :: s)) with (chr_eqb x c && true).
  rewrite andb_true_r. change (length [x] - 1) with 0.
  destruct (chr_eqb x c) eqn:E.
  - unfold chr_eqb in E. apply Ascii.eqb_eq in E. subst c.
    rewrite filter_app, Hn, IH.
    change (filter m (x :: s)) with (if m x then x :: filter m s
                                     else filter m s).
    now rewrite Hx.
  - simpl. now rewrite IH.
Qed.

Lemma filter_join (m : ascii -> bool) (sep : str) (parts : list str) :
  filter m sep = [] ->
  filter m (join sep parts) = concat (map (filter m) parts).
Proof.
  intros Hs. induction parts as [|p parts IH]; [reflexivity|].
  destruct parts as [|q parts].
  - simpl. now rewrite app_nil_r.
  - change (join sep (p :: q :: parts)) with (p ++ sep ++ join sep (q :: parts)).
    rewrite !filter_app, Hs, IH. reflexivity.
Qed.

Lemma filter_split_nl (m : ascii -> bool) (s : str) :
  m nl = false ->
  forall cur, concat (map (filter m) (split_nl_go cur s))
              = filter m (rev cur ++ s).
Proof.
  intros Hn. induction s as [|c s IH]; intros cur.
  - simpl. now rewrite !app_nil_r.
  - change (split_nl_go cur (c :: s))
      with (if chr_eqb c nl then rev cur :: split_nl_go [] s
            else split_nl_go (c :: cur) s).
    destruct (chr_eqb c nl) eqn:E.
    + unfold chr_eqb in E. apply Ascii.eqb_eq in E. subst c.
      change (concat (map (filter m) (rev cur :: split_nl_go [] s)))
        with (filter m (rev cur) ++ concat (map (filter m) (split_nl_go [] s))).
      rewrite IH. change (rev [] ++ s) with s.
      rewrite (filter_app m (rev cur)).
      change (filter m (nl :: s)) with (if m nl then nl :: filter m s
                                        else filter m s).
      now rewrite Hn.
    + rewrite IH. simpl. rewrite <- app_assoc. reflexivity.
Qed.

(** The marker characters of a code block are those of its code. *)
Lemma code_with_br_markers (code : str) :
  filter is_marker (code_with_br code) = filter is_marker code.
Proof.
  unfold code_with_br. rewrite filter_join by reflexivity.
  rewrite map_map.
  rewrite (map_ext _ (filter is_marker))
    by (intros x; now apply filter_replace_chr).
  unfold split_nl. now rewrite filter_split_nl.
Qed.

(** Well-formed markup around one fence.  Take a text made of plain
    characters, emphasis pairs and inline-code pairs (each around non-empty
    plain text) before and after one properly fenced code region, the piece
    before the fence not being an inline-code pair, and the translated
    surroundings free of the placeholder prefix.  Its translation is the
    translation of the pieces before, the code container, and the
    translation of the pieces after: every pair outside the fence becomes
    its tag pair, so that no asterisk and no backtick is left outside the
    container; and the container holds the code with its spaces and
    newlines escaped, its asterisks and backticks unchanged and in order. *)
Theorem format_question_text_markup
    (segs1 segs2 : list seg) (lang code : str) :
  forallb wf_seg segs1 = true -> forallb wf_seg segs2 = true ->
  ends_with_code segs1 = false ->
  forallb is_word lang = true -> fence_free code = true ->
  no_placeholder (html segs1) = true -> no_placeholder (html segs2) = true ->
  format_question_text (render segs1 ++ fenced lang code ++ render segs2)
  = html segs1 ++ div_open ++ code_with_br code ++ div_close ++ html segs2
  /\ Forall (fun c => is_marker c = false) (html segs1)
  /\ Forall (fun c => is_marker c = false) (html segs2)
  /\ filter is_marker (code_with_br code) = filter is_marker code.
Proof.
  intros W1 W2 He Hl Hc N1 N2.
  split; [|split; [now apply html_no_marker|
                   split; [now apply html_no_marker|
                           apply code_with_br_markers]]].
  unfold format_question_text.
  rewrite (fence_pass_text segs1 segs2 lang code W1 W2 He Hl Hc).
  rewrite (bold_pass_text segs1 segs2 W1 W2).
  rewrite (code_pass_text segs1 segs2 W1 W2).
  rewrite !replace_nl_app.
  change (replace [nl] (lit "<br>") (placeholder 0)) with (placeholder 0).
  fold (html segs1). fold (html segs2).
  unfold restore. rewrite (restore_single _ _ _ N1 N2).
  now rewrite <- !app_assoc.
Qed.

Lemma format_question_text_markup_witness :
  format_question_text
    (render marked_before ++ fenced (lit "python") marked_code
       ++ render marked_after)
  = html marked_before ++ div_open ++ code_with_br marked_code ++ div_close
    ++ html marked_after.
Proof.
  assert (W1 : forallb wf_seg marked_before = true) by (vm_compute; reflexivity).
  assert (W2 : forallb wf_seg marked_after = true) by (vm_compute; reflexivity).
  assert (He : ends_with_code marked_before = false) by (vm_compute; reflexivity).
  assert (Hl : forallb is_word (lit "python") = true) by (vm_compute; reflexivity).
  assert (Hc : fence_free marked_code = true) by (vm_compute; reflexivity).
  assert (N1 : no_placeholder (html marked_before) = true)
    by (vm_compute; reflexivity).
  assert (N2 : no_placeholder (html marked_after) = true)
    by (vm_compute; reflexivity).
  exact (proj1 (format_question_text_markup marked_before marked_after
                  (lit "python") marked_code W1 W2 He Hl Hc N1 N2)).
Defined.

(* ------------------------------------------------------------------ *)
(** ** The rows written for a document *)

Lemma read_nat_digits (n : nat) : read_nat (str_of_nat n) = Some n.
Proof.
  unfold read_nat, str_of_nat, lit.
  rewrite string_of_list_ascii_of_string.
  rewrite <- (DecimalNat.Unsigned.of_to n) at 2.
  destruct (Nat.to_uint n); try reflexivity;
    rewrite NilZero.usu by discriminate; reflexivity.
Qed.

Lemma read_nat_padded (n : nat) :
  read_nat ("0"%char :: str_of_nat n) = Some n.
Proof.
  unfold read_nat, str_of_nat, lit.
  change (string_of_list_ascii
            ("0"%char :: list_ascii_of_string
                           (NilZero.string_of_uint (Nat.to_uint n))))
    with (String "0"
            (string_of_list_ascii
               (list_ascii_of_string
                  (NilZero.string_of_uint (Nat.to_uint n))))).
  rewrite string_of_list_ascii_of_string.
  rewrite <- (DecimalNat.Unsigned.of_to n) at 2.
  destruct (Nat.to_uint n) as [|d|d|d|d|d|d|d|d|d|d]; try reflexivity;
    unfold NilZero.uint_of_string, NilZero.string_of_uint;
    cbn [NilEmpty.uint_of_string]; rewrite NilEmpty.usu; reflexivity.
Qed.

(** Two-digit formatting can be read back, so it loses no number. *)
Lemma format_02d_read (n : Z) :
  (0 <= n)%Z -> read_nat (format_02d n) = Some (Z.to_nat n).
Proof.
  intros H. unfold format_02d.
  replace (n <? 0)%Z with false by (symmetry; apply Z.ltb_ge; lia).
  cbv zeta. destruct (length (str_of_nat (Z.to_nat n)) <? 2).
  - apply read_nat_padded.
  - apply read_nat_digits.
Qed.

Lemma question_id_inj (course_code : str) (q1 q2 : Q.t) :
  (0 <= Q.num q1)%Z -> (0 <= Q.num q2)%Z ->
  question_id course_code q1 = question_id course_code q2 ->
  Q.num q1 = Q.num q2.
Proof.
  unfold question_id. intros H1 H2 E.
  apply app_inv_head in E. apply app_inv_head in E.
  pose proof (format_02d_read _ H1) as R1.
  pose proof (format_02d_read _ H2) as R2.
  rewrite E in R1. rewrite R1 in R2. injection R2 as R2. lia.
Qed.

(** The rows of one question that carry a given keyword. *)
Lemma rows_tagged_app (tag : str) (xs ys : list (list str)) :
  rows_tagged tag (xs ++ ys) = rows_tagged tag xs ++ rows_tagged tag ys.
Proof. apply filter_app. Qed.

Lemma rows_tagged_options (tag a b : str) (os : list Opt.t) :
  str_eqb (lit "Option") tag = false ->
  rows_tagged tag (option_rows a b os) = [].
Proof.
  intros H. unfold option_rows.
  induction os as [|o os IH]; [reflexivity|].
  change (rows_tagged tag (map ?f (o :: os)))
    with (if str_eqb (lit "Option") tag
          then f o :: rows_tagged tag (map f os)
          else rows_tagged tag (map f os)).
  now rewrite H.
Qed.

Lemma rows_tagged_question (course_code : str) (incl : bool) (q : Q.t) :
  Q.text q <> [] ->
  rows_tagged (lit "NewQuestion") (question_rows course_code incl q)
  = [[lit "NewQuestion"; type_code (Q.type q); []; []; []]]
  /\ rows_tagged (lit "ID") (question_rows course_code incl q)
     = [[lit "ID"; question_id course_code q; []; []; []]].
Proof.
  intros H. apply is_empty_false in H. unfold question_rows. rewrite H.
  cbv zeta. rewrite !rows_tagged_app.
  split.
  - destruct (Q.type q);
      [| change (rows_tagged ?t ([lit "Scoring"; ?a; ?b; ?c; ?d] :: ?l))
           with (rows_tagged t l) |];
      rewrite ?rows_tagged_options by reflexivity;
      destruct (negb (is_empty (Q.correct_explanation q)) && _); reflexivity.
  - destruct (Q.type q);
      [| change (rows_tagged ?t ([lit "Scoring"; ?a; ?b; ?c; ?d] :: ?l))
           with (rows_tagged t l) |];
      rewrite ?rows_tagged_options by reflexivity;
      destruct (negb (is_empty (Q.correct_explanation q)) && _); reflexivity.
Qed.

Lemma rows_tagged_questions (course_code : str) (incl : bool) (qs : list Q.t) :
  Forall (fun q => Q.text q <> []) qs ->
  map second_field
    (rows_tagged (lit "NewQuestion")
       (flat_map (question_rows course_code incl) qs))
  = map (fun q => type_code (Q.type q)) qs
  /\ map second_field
       (rows_tagged (lit "ID") (flat_map (question_rows course_code incl) qs))
     = map (question_id course_code) qs.
Proof.
  induction 1 as [|q qs Hq _ [IH1 IH2]]; [split; reflexivity|].
  destruct (rows_tagged_question course_code incl q Hq) as [A B].
  simpl flat_map. rewrite !rows_tagged_app, A, B, !map_app, IH1, IH2.
  split; reflexivity.
Qed.

Lemma parsed_texts_nonempty (content : str) :
  Forall (fun q => Q.text q <> []) (parse_quiz_file content).
Proof.
  apply Forall_forall. intros q Hq.
  unfold parse_quiz_file in Hq. rewrite parse_quiz_lines_groups in Hq.
  apply parse_groups_in in Hq as (g & m & P).
  now apply parse_question_text in P.
Qed.

Lemma rows_tagged_header :
  rows_tagged (lit "NewQuestion") header_rows = []
  /\ rows_tagged (lit "ID") header_rows = [].
Proof. split; reflexivity. Qed.

(** Written questions.  For every document, course code and title
    setting, the rows written for its parsed questions contain one
    [NewQuestion] row and one [ID] row per question, in document order, with
    the question's type code and identifier: the guard that skips questions
    without text never fires on the output of the parser. *)
Theorem every_parsed_question_is_written
    (content course_code : str) (include_titles : bool) :
  map second_field
    (rows_tagged (lit "NewQuestion")
       (write_d2l_csv (parse_quiz_file content) course_code include_titles))
  = map (fun q => type_code (Q.type q)) (parse_quiz_file content)
  /\ map second_field
       (rows_tagged (lit "ID")
          (write_d2l_csv (parse_quiz_file content) course_code include_titles))
     = map (question_id course_code) (parse_quiz_file content).
Proof.
  unfold write_d2l_csv. rewrite !rows_tagged_app.
  destruct rows_tagged_header as [-> ->].
  apply rows_tagged_questions, parsed_texts_nonempty.
Qed.

Lemma NoDup_map_finer {A B C : Type} (f : A -> B) (g : A -> C) (l : list A) :
  (forall x y, In x l -> In y l -> g x = g y -> f x = f y) ->
  NoDup (map f l) -> NoDup (map g l).
Proof.
  induction l as [|a l IH]; intros H N; simpl in *; [constructor|].
  inversion N as [|? ? Hn N']; subst. constructor.
  - intros Hin. apply in_map_iff in Hin as (y & E & Hy).
    apply Hn. apply in_map_iff. exists y. split; [|exact Hy].
    symmetry. apply H; [now left|now right|now symmetry].
  - apply IH; [|exact N']. intros x y Hx Hy. apply H; now right.
Qed.

(** Identifiers.  For every document, course code and title setting, the
    identifiers written in the [ID] rows are pairwise distinct: the question
    numbers are distinct and positive, and the two-digit formatting with the
    course code in front maps different numbers to different texts. *)
Theorem written_ids_are_distinct
    (content course_code : str) (include_titles : bool) :
  NoDup (map second_field
           (rows_tagged (lit "ID")
              (write_d2l_csv (parse_quiz_file content) course_code
                 include_titles))).
Proof.
  unfold write_d2l_csv. rewrite rows_tagged_app.
  rewrite (proj2 rows_tagged_header), app_nil_l.
  rewrite (proj2 (rows_tagged_questions course_code include_titles _
                    (parsed_texts_nonempty content))).
  unfold parse_quiz_file. rewrite parse_quiz_lines_groups.
  apply (NoDup_map_finer Q.num).
  - intros x y Hx Hy. apply parse_groups_from in Hx, Hy.
    apply question_id_inj; lia.
  - apply sorted_nodup, parse_groups_sorted.
Qed.

(* ------------------------------------------------------------------ *)
(** ** The scores of the written options *)

Lemma rows_tagged_option_rows (a b : str) (os : list Opt.t) :
  map second_field (rows_tagged (lit "Option") (option_rows a b os))
  = map (fun o => if Opt.correct o then a else b) os.
Proof.
  unfold option_rows. induction os as [|o os IH]; [reflexivity|].
  change (rows_tagged (lit "Option") (map ?f (o :: os)))
    with (f o :: rows_tagged (lit "Option") (map f os)).
  cbn [map second_field]. now rewrite IH.
Qed.

Lemma count_of_scores (a b : str) (os : list Opt.t) :
  str_eqb a b = false ->
  count_of a (map (fun o => if Opt.correct o then a else b) os)
  = correct_count os.
Proof.
  intros H. unfold count_of, correct_count.
  assert (R : str_eqb a a = true) by now apply str_eqb_eq.
  induction os as [|o os IH]; [reflexivity|].
  cbn [map filter]. destruct (Opt.correct o).
  - rewrite R. cbn [length]. now rewrite IH.
  - rewrite H. exact IH.
Qed.

Lemma scores_two_valued (a b : str) (os : list Opt.t) :
  Forall (fun s => s = a \/ s = b)
         (map (fun o => if Opt.correct o then a else b) os).
Proof.
  apply Forall_forall. intros s Hs. apply in_map_iff in Hs as (o & <- & _).
  destruct (Opt.correct o); [now left|now right].
Qed.

Lemma written_scores_eq (course_code : str) (incl : bool) (q : Q.t) :
  Q.text q <> [] ->
  written_scores course_code incl q
  = match Q.type q with
    | MC => map (fun o => if Opt.correct o then lit "100" else lit "0")
                (Q.options q)
    | MS => map (fun o => if Opt.correct o then lit "1" else lit "0")
                (Q.options q)
    | SA => []
    end.
Proof.
  intros H. apply is_empty_false in H.
  unfold written_scores, question_rows. rewrite H. cbv zeta.
  rewrite !rows_tagged_app, !map_app.
  change (rows_tagged (lit "Option") [?a; ?b; ?c; ?d; ?e; ?f])
    with (@nil (list str)).
  assert (F : forall (c : bool) (r : list (list str)),
             rows_tagged (lit "Option")
               (if c then [[lit "Feedback"; Q.correct_explanation q; []; []; []]]
                else []) = [])
    by (intros [|] r; reflexivity).
  rewrite (F _ []).
  change (rows_tagged (lit "Option") [[]]) with (@nil (list str)).
  cbn [map app]. rewrite !app_nil_r.
  destruct (Q.type q).
  - reflexivity.
  - change (rows_tagged ?t ([lit "Scoring"; ?a; ?b; ?c; ?d] :: ?l))
      with (rows_tagged t l).
    apply rows_tagged_option_rows.
  - apply rows_tagged_option_rows.
Qed.

(** Scores.  For every document, the option rows written for a question
    carry these scores: a single-select question has at least one option
    row, each scored 100 or 0, and at most one of them 100; a multi-select
    question has at least two option rows scored 1, the others 0; a
    free-response question has no option row, whatever options its block
    listed. *)
Theorem written_option_scores
    (content course_code : str) (include_titles : bool) (q : Q.t) :
  In q (parse_quiz_file content) ->
  match Q.type q with
  | MC => written_scores course_code include_titles q <> []
          /\ count_of (lit "100")
               (written_scores course_code include_titles q) <= 1
          /\ Forall (fun s => s = lit "100" \/ s = lit "0")
               (written_scores course_code include_titles q)
  | MS => 2 <= count_of (lit "1")
                 (written_scores course_code include_titles q)
          /\ Forall (fun s => s = lit "1" \/ s = lit "0")
               (written_scores course_code include_titles q)
  | SA => written_scores course_code include_titles q = []
  end.
Proof.
  intros Hin. unfold parse_quiz_file in Hin.
  rewrite parse_quiz_lines_groups in Hin.
  apply parse_groups_in in Hin as (g & m & P).
  pose proof (parse_question_text _ _ _ P) as [_ Ht].
  rewrite (written_scores_eq course_code include_titles q Ht).
  unfold parse_question in P. destruct g as [|l g]; [discriminate|].
  apply qtype_of_finish in P as [_ T].
  destruct (Q.type q) eqn:Ty.
  - reflexivity.
  - split; [|apply scores_two_valued].
    rewrite count_of_scores by reflexivity.
    destruct (is_short_answer _ || is_empty _); [discriminate|].
    destruct (1 <? correct_count (Q.options q)) eqn:C; [|discriminate].
    apply Nat.ltb_lt in C. lia.
  - split; [|split; [|apply scores_two_valued]].
    + destruct (Q.options q) as [|o os]; [|discriminate].
      rewrite orb_true_r in T. discriminate.
    + rewrite count_of_scores by reflexivity.
      destruct (is_short_answer _ || is_empty _); [discriminate|].
      destruct (1 <? correct_count (Q.options q)) eqn:C; [discriminate|].
      apply Nat.ltb_ge in C. lia.
Qed.

Lemma written_option_scores_witness :
  exists q,
    In q (parse_quiz_file scenario5_document)
    /\ match Q.type q with
       | MC => written_scores (lit "CS101") true q <> []
               /\ count_of (lit "100") (written_scores (lit "CS101") true q) <= 1
               /\ Forall (fun s => s = lit "100" \/ s = lit "0")
                    (written_scores (lit "CS101") true q)
       | MS => 2 <= count_of (lit "1") (written_scores (lit "CS101") true q)
               /\ Forall (fun s => s = lit "1" \/ s = lit "0")
                    (written_scores (lit "CS101") true q)
       | SA => written_scores (lit "CS101") true q = []
       end.
Proof.
  destruct (parse_quiz_file scenario5_document) as [|q qs] eqn:E.
  - exfalso. vm_compute in E. discriminate E.
  - exists q.
    assert (Hin : In q (parse_quiz_file scenario5_document))
      by (rewrite E; now left).
    rewrite <- E. split; [exact Hin|].
    exact (written_option_scores scenario5_document (lit "CS101") true q Hin).
Defined.

(* ------------------------------------------------------------------ *)
(** ** Titles *)

(** *** Trimming *)

Lemma lstrip_split (s : str) :
  exists w, s = w ++ lstrip s /\ forallb is_space w = true.
Proof.
  induction s as [|c s (w & E & W)]; [now exists []|].
  simpl. destruct (is_space c) eqn:C.
  - exists (c :: w). simpl. rewrite C, W. split; [now rewrite <- E|reflexivity].
  - now exists [].
Qed.

Lemma lstrip_head (s t : str) (c : ascii) :
  lstrip s = c :: t -> is_space c = false.
Proof.
  induction s as [|d s IH]; simpl; [discriminate|].
  destruct (is_space d) eqn:D; [exact IH|].
  intros H. injection H as <- _. exact D.
Qed.

Lemma lstrip_nil (s : str) : lstrip s = [] -> forallb is_space s = true.
Proof.
  induction s as [|d s IH]; simpl; [reflexivity|].
  destruct (is_space d); [exact IH|discriminate].
Qed.

Lemma strip_last (s u : str) (c : ascii) :
  strip s = u ++ [c] -> is_space c = false.
Proof.
  unfold strip, rstrip. intros H.
  apply (f_equal (@rev ascii)) in H.
  rewrite rev_involutive, rev_app_distr in H. simpl in H.
  now apply lstrip_head in H.
Qed.

(** The trimmed text lies inside the text. *)
Lemma strip_inside (s : str) : exists w1 w2, s = w1 ++ strip s ++ w2.
Proof.
  destruct (lstrip_split s) as (w1 & E1 & _).
  destruct (lstrip_split (rev (lstrip s))) as (w2 & E2 & _).
  exists w1, (rev w2). unfold strip, rstrip.
  rewrite <- rev_app_distr, <- E2, rev_involutive. exact E1.
Qed.

Lemma strip_nl_free (s : str) : nl_free s -> nl_free (strip s).
Proof.
  destruct (strip_inside s) as (w1 & w2 & E). unfold nl_free. intros H.
  rewrite E in H. apply Forall_app in H as [_ H].
  now apply Forall_app in H as [H _].
Qed.

(** Text with a character that is no white space does not trim to nothing. *)
Lemma strip_keeps (s : str) (c : ascii) :
  In c s -> is_space c = false -> strip s <> [].
Proof.
  intros Hin Hc E. unfold strip, rstrip in E.
  apply (f_equal (@rev ascii)) in E. rewrite rev_involutive in E. simpl in E.
  apply lstrip_nil in E. rewrite forallb_forall in E.
  destruct (lstrip_split s) as (w & Es & W). rewrite forallb_forall in W.
  rewrite Es in Hin. apply in_app_or in Hin as [Hin|Hin].
  - rewrite (W c Hin) in Hc. discriminate.
  - rewrite (E c) in Hc; [discriminate|]. now apply in_rev in Hin.
Qed.

(** *** The header pattern *)

Lemma star_greedy_pos {A : Type} (p : ascii -> bool) (k : mstate -> option A)
    (cs : list (nat * str)) (a : str) :
  forall (b : str) (x : A),
    star_greedy p k cs b a = Some x ->
    exists w a', a = w ++ a' /\ k (MState (rev w ++ b) a' cs) = Some x.
Proof.
  induction a as [|c a IH]; intros b x H; simpl in H.
  - now exists [], [].
  - destruct (p c).
    + destruct (star_greedy p k cs (c :: b) a) as [y|] eqn:E.
      * injection H as <-. apply IH in E as (w & a' & -> & E).
        exists (c :: w), a'. split; [reflexivity|].
        simpl. now rewrite <- app_assoc.
      * now exists [], (c :: a).
    + now exists [], (c :: a).
Qed.

Lemma star_greedy_end {A : Type} (p : ascii -> bool) (k : mstate -> option A)
    (cs : list (nat * str)) (w b : str) (x : A) :
  forallb p w = true ->
  k (MState (rev w ++ b) [] cs) = Some x ->
  star_greedy p k cs b w = Some x.
Proof.
  intros Hw Hk. rewrite <- (app_nil_r w).
  now apply star_greedy_all.
Qed.

Lemma run_Lit_inv {A : Type} (L : str) (k : mstate -> option A) :
  forall b a cs x,
    run (Lit L) (MState b a cs) k = Some x ->
    exists a', a = L ++ a' /\ k (MState (rev L ++ b) a' cs) = Some x.
Proof.
  induction L as [|c L IH]; intros b a cs x H.
  - now exists a.
  - destruct a as [|d a]; [discriminate|].
    cbn [Lit run aft bef caps] in H. unfold is_chr in H.
    destruct (chr_eqb d c) eqn:E; [|discriminate].
    apply Ascii.eqb_eq in E. subst d.
    apply IH in H as (a' & -> & H). exists a'. split; [reflexivity|].
    simpl. now rewrite <- app_assoc.
Qed.

Lemma run_Bol_nil {A : Type} (a : str) (cs : list (nat * str))
    (k : mstate -> option A) :
  run Bol (MState [] a cs) k = k (MState [] a cs).
Proof. reflexivity. Qed.

Lemma run_Star {A : Type} (p : ascii -> bool) (b a : str)
    (cs : list (nat * str)) (k : mstate -> option A) :
  run (Star p) (MState b a cs) k = star_greedy p k cs b a.
Proof. reflexivity. Qed.

Lemma run_Eol {A : Type} (s : mstate) (k : mstate -> option A) :
  run Eol s k = if at_eol s then k s else None.
Proof. reflexivity. Qed.

(** A match of the header pattern: the two hashes, white space, the
    captured text, which is not empty and runs to the end of the line or to
    a last newline. *)
Lemma re_header_sound (s : str) (m : list (nat * str)) :
  re_match re_header s = Some m ->
  exists w t, s = lit "##" ++ w ++ group 1 m ++ t
              /\ group 1 m <> [] /\ (t = [] \/ t = [nl]).
Proof.
  unfold re_match. destruct (exec re_header [] s) as [s'|] eqn:E;
    [|discriminate].
  intros H. injection H as <-.
  unfold exec, re_header in E. cbn [Seq] in E.
  rewrite run_Cat, run_Bol_nil in E. cbv beta in E.
  rewrite run_Cat in E. apply run_Lit_inv in E as (a1 & -> & E).
  rewrite run_Cat, run_Star in E.
  apply star_greedy_pos in E as (w & a2 & -> & E).
  rewrite run_Cat, run_Grp in E. unfold Plus in E. rewrite run_Cat in E.
  destruct a2 as [|c a2]; [discriminate|].
  rewrite run_Chr_cons in E. destruct (is_dot c); [|discriminate].
  rewrite run_Star in E.
  apply star_greedy_pos in E as (g & a3 & -> & E).
  cbn [bef aft caps] in E.
  change (rev g ++ c :: ?b) with (rev g ++ rev [c] ++ b) in E.
  rewrite (app_assoc (rev g)), <- rev_app_distr in E.
  change ([c] ++ g) with (c :: g) in E.
  rewrite consumed_app in E.
  rewrite run_Cat, run_Eol in E.
  destruct (at_eol _) eqn:T; [|discriminate].
  cbn [run] in E. injection E as <-. cbn [caps group Nat.eqb].
  exists w, a3. split; [reflexivity|]. split; [discriminate|].
  unfold at_eol in T. cbn [aft] in T.
  destruct a3 as [|d [|e a3]]; [now left| |discriminate].
  right. apply Ascii.eqb_eq in T. now subst d.
Qed.

(** The title taken from a matching line is never empty. *)
Lemma header_title_nonempty (line : str) (m : list (nat * str)) :
  re_match re_header (strip line) = Some m -> strip (group 1 m) <> [].
Proof.
  intros H. apply re_header_sound in H as (w & t & E & G & T).
  destruct (exists_last G) as (g' & c & Eg).
  destruct T as [-> | ->].
  - rewrite app_nil_r, Eg, !app_assoc in E. apply strip_last in E.
    apply (strip_keeps _ c); [|exact E].
    rewrite Eg. apply in_or_app. right. now left.
  - rewrite !app_assoc in E. apply strip_last in E. discriminate E.
Qed.

Lemma startswith_split (p s : str) :
  startswith p s = true -> exists r, s = p ++ r.
Proof.
  revert s. induction p as [|x p IH]; intros s H; [now exists s|].
  destruct s as [|y s]; [discriminate|]. simpl in H.
  apply andb_true_iff in H as [E H]. apply Ascii.eqb_eq in E. subst y.
  apply IH in H as (r & ->). now exists r.
Qed.

(** A line the splitter takes for a header matches the header pattern, when
    it holds no newline. *)
Lemma header_line_matches (line : str) :
  is_header line = true -> nl_free line ->
  exists m, re_match re_header (strip line) = Some m.
Proof.
  unfold is_header. intros H N. apply andb_true_iff in H as [H _].
  apply strip_nl_free in N.
  apply startswith_split in H as (r & E).
  change (lit "## " ++ r) with (lit "##" ++ space :: r) in E.
  destruct (lstrip_split (space :: r)) as (w & Ew & W).
  destruct (lstrip (space :: r)) as [|c g] eqn:L.
  - exfalso. rewrite app_nil_r in Ew. subst w.
    destruct (@exists_last _ (space :: r)) as (u & d & Eu); [discriminate|].
    rewrite Eu in E, W. rewrite app_assoc in E. apply strip_last in E.
    rewrite forallb_app in W. apply andb_true_iff in W as [_ W].
    simpl in W. rewrite E in W. discriminate.
  - pose proof (lstrip_head _ _ _ L) as C.
    rewrite E, Ew in N |- *.
    unfold nl_free in N. apply Forall_app in N as [_ N].
    apply Forall_app in N as [_ N].
    assert (D : forallb is_dot (c :: g) = true).
    { apply forallb_forall. intros x Hx. rewrite Forall_forall in N.
      specialize (N x Hx). unfold is_dot, chr_eqb.
      destruct (Ascii.eqb x nl) eqn:X; [|reflexivity].
      apply Ascii.eqb_eq in X. contradiction. }
    simpl in D. apply andb_true_iff in D as [Dc Dg].
    exists [(1, c :: g)].
    unfold re_match, exec, re_header. cbn [Seq].
    rewrite run_Cat, run_Bol_nil. cbv beta.
    rewrite run_Cat, run_Lit_app. rewrite run_Cat, run_Star.
    rewrite (star_greedy_all is_space _ [] w (c :: g)
               (MState (rev (c :: g) ++ rev w ++ rev (lit "##") ++ []) []
                  [(1, c :: g)]));
      [reflexivity|exact W|simpl; now rewrite C|].
    rewrite run_Cat, run_Grp. unfold Plus. rewrite run_Cat, run_Chr_cons, Dc.
    rewrite run_Star. cbn [bef aft caps].
    apply star_greedy_end; [exact Dg|].
    cbn [bef aft caps].
    change (rev g ++ c :: ?b) with (rev g ++ rev [c] ++ b).
    rewrite (app_assoc (rev g)), <- rev_app_distr.
    change ([c] ++ g) with (c :: g).
    rewrite consumed_app, run_Cat, run_Eol. reflexivity.
Qed.

(** *** Through the block *)

Lemma step_title_kept (st : pstate) (line : str) :
  title st <> [] -> title (step st line) <> [].
Proof.
  intros H. unfold step.
  destruct (startswith (lit "```") (strip line)).
  { destruct (in_code_block st); exact H. }
  destruct (in_code_block st); [exact H|].
  destruct (is_empty (strip line) || str_eqb (strip line) (lit "---"));
    [exact H|].
  destruct (re_match re_header (strip line)) as [m|] eqn:M.
  { cbn [set_title title]. now apply header_title_nonempty in M. }
  destruct (contains _ _ || contains _ _); [exact H|].
  destruct (re_match re_correct (strip line)) as [m|].
  { unfold on_correct. cbv zeta. destruct (is_empty _); exact H. }
  destruct (re_match re_feedback (strip line)) as [m|]; [exact H|].
  destruct (re_match re_option (strip line)) as [m|]; [exact H|].
  destruct (startswith _ _ || startswith _ _); exact H.
Qed.

Lemma step_header_title (line : str) :
  is_header line = true -> nl_free line -> title (step pstate0 line) <> [].
Proof.
  intros H N. destruct (header_line_matches line H N) as (m & M).
  unfold is_header in H. apply andb_true_iff in H as [H _].
  apply startswith_split in H as (r & E).
  unfold step. rewrite M, E.
  change (startswith (lit "```") (lit "## " ++ r)) with false.
  change (in_code_block pstate0) with false.
  change (is_empty (lit "## " ++ r)) with false.
  cbn [orb]. 
  assert (S3 : str_eqb (lit "## " ++ r) (lit "---") = false) by reflexivity.
  rewrite S3. cbn [set_title title].
  now apply header_title_nonempty in M.
Qed.

Lemma parse_question_title (g : list str) (n : Z) (q : Q.t) :
  headed g -> parse_question g n = Some q -> Q.title q <> [].
Proof.
  destruct g as [|h g]; [contradiction|]. intros [H N] P.
  unfold parse_question, finish in P.
  destruct (is_empty (strip _)); [discriminate|].
  injection P as <-. cbn [Q.title].
  unfold scan. cbn [fold_left].
  pose proof (step_header_title h H N) as T.
  revert T. generalize (step pstate0 h).
  induction g as [|l g IH]; intros st T; [exact T|].
  cbn [fold_left]. apply IH. now apply step_title_kept.
Qed.

(** *** The groups of a document *)

Lemma groups_go_headed (lines : list str) :
  forall cur,
    Forall nl_free lines -> (cur = [] \/ headed cur) ->
    Forall headed (groups_go cur lines).
Proof.
  induction lines as [|l lines IH]; intros cur N C; simpl.
  - destruct cur; [constructor|].
    destruct C as [C|C]; [discriminate|]. now constructor.
  - inversion N as [|? ? Nl N']; subst.
    destruct (is_header l) eqn:H.
    + destruct cur as [|c cur].
      * apply IH; [exact N'|]. right. now split.
      * destruct C as [C|C]; [discriminate|].
        constructor; [exact C|]. apply IH; [exact N'|]. right. now split.
    + destruct cur as [|c cur].
      * apply IH; [exact N'|now left].
      * apply IH; [exact N'|]. right.
        destruct C as [C|C]; [discriminate|]. exact C.
Qed.

Lemma before_trailer_Forall (P : str -> Prop) (lines : list str) :
  Forall P lines -> Forall P (before_trailer lines).
Proof.
  induction 1 as [|l lines Hl _ IH]; simpl; [constructor|].
  destruct (is_trailer l); [constructor|now constructor].
Qed.

Lemma parse_groups_headed (gs : list (list str)) (q : Q.t) :
  forall n, Forall headed gs -> In q (parse_groups n gs) ->
            exists g m, headed g /\ parse_question g m = Some q.
Proof.
  induction gs as [|g gs IH]; intros n F Hin; simpl in Hin; [contradiction|].
  inversion F as [|? ? Hg F']; subst.
  destruct (parse_question g n) as [q'|] eqn:P.
  - destruct Hin as [<-|Hin]; [now exists g, n|now apply (IH (n + 1)%Z)].
  - now apply (IH (n + 1)%Z).
Qed.

(** Titles.  Every question [parse_quiz_file] returns has a title that is
    not empty: its block opens with the header line that started it, that
    line matches the header pattern of [parse_question], and every later
    match of the pattern in the block stores a non-empty text again. *)
Theorem parsed_title_nonempty (content : str) (q : Q.t) :
  In q (parse_quiz_file content) -> Q.title q <> [].
Proof.
  unfold parse_quiz_file. rewrite parse_quiz_lines_groups. intros Hin.
  apply parse_groups_headed in Hin as (g & m & Hg & P).
  - exact (parse_question_title g m q Hg P).
  - unfold groups. apply groups_go_headed; [|now left].
    apply before_trailer_Forall. apply split_nl_go_free. constructor.
Qed.

Lemma parsed_title_nonempty_witness :
  exists q, In q (parse_quiz_file open_ended_document) /\ Q.title q <> [].
Proof.
  destruct (parse_quiz_file open_ended_document) as [|q qs] eqn:E.
  - exfalso. vm_compute in E. discriminate E.
  - exists q.
    assert (Hin : In q (parse_quiz_file open_ended_document))
      by (rewrite E; now left).
    rewrite <- E. split; [exact Hin|].
    exact (parsed_title_nonempty open_ended_document q Hin).
Defined.

(* ------------------------------------------------------------------ *)
(** ** Feedback and answer rows *)




(* ------------------------------------------------------------------ *)
(** ** The HTML indicator *)

Lemma exec_tag_none (b a : str) :
  startswith (lit "<") a = false -> exec re_tag b a = None.
Proof.
  intros H. unfold exec, re_tag. cbn [Seq]. rewrite run_Cat.
  now apply run_Lit_fail.
Qed.

Lemma search_tag_none (a : str) :
  forall b, forallb (not_chr "<"%char) a = true ->
            search_go re_tag b a = false.
Proof.
  induction a as [|c a IH]; intros b H.
  - reflexivity.
  - simpl in H. apply andb_true_iff in H as [Hc H].
    cbn [search_go]. rewrite exec_tag_none; [now apply IH|].
    unfold not_chr in Hc. apply negb_true_iff in Hc.
    cbn [lit list_ascii_of_string startswith].
    now rewrite chr_eqb_sym, Hc.
Qed.

Lemma exec_tag_br (b X : str) :
  exec re_tag b (lit "<br>" ++ X)
  = Some (MState (rev (lit "<br>") ++ b) X []).
Proof.
  unfold exec, re_tag. cbn [Seq].
  change (lit "<br>" ++ X)
    with (lit "<" ++ "b"%char :: lit "r" ++ lit ">" ++ X).
  rewrite run_Cat, run_Lit_app. rewrite run_Cat, run_Chr_cons.
  change (is_alpha "b"%char) with true. cbv iota.
  rewrite run_Cat, run_Star.
  apply star_greedy_all; [reflexivity|reflexivity|].
  rewrite run_Cat, run_Lit_app. reflexivity.
Qed.

Lemma replace_one_line (new s : str) :
  one_line s = true -> replace [nl] new s = s.
Proof.
  unfold replace, one_line. induction s as [|c s IH]; intros H; [reflexivity|].
  simpl in H. apply andb_true_iff in H as [Hc H].
  apply negb_true_iff in Hc.
  rewrite replace_go_cons. cbn [startswith].
  rewrite chr_eqb_sym, Hc. cbn [andb]. now rewrite IH.
Qed.

Lemma search_tag_break (s : str) :
  forall b, one_line s = false ->
            search_go re_tag b (replace_go [nl] (lit "<br>") 0 s) = true.
Proof.
  unfold one_line. induction s as [|c s IH]; intros b H; [discriminate|].
  simpl in H. rewrite replace_go_cons. cbn [startswith].
  rewrite chr_eqb_sym. destruct (chr_eqb c nl) eqn:C.
  - cbn [andb length Nat.sub].
    destruct (lit "<br>" ++ replace_go [nl] (lit "<br>") 0 s) as [|d r] eqn:E;
      [discriminate|].
    cbn [search_go]. rewrite <- E. now rewrite exec_tag_br.
  - cbn [andb negb] in H |- *. cbn [search_go].
    destruct (exec re_tag b _); [reflexivity|]. now apply IH.
Qed.

(** The indicator of the question text.  For a text without asterisks,
    backticks and opening angle brackets, the [QuestionText] row is marked
    [HTML] exactly when the text has more than one line: the only tag the
    translation can then contain is the line break it writes for a
    newline. *)
Theorem plain_text_html_flag (text : str) :
  plain_str text = true ->
  forallb (not_chr "<"%char) text = true ->
  html_flag (format_question_text text)
  = if one_line text then [] else lit "HTML".
Proof.
  intros H L.
  assert (F : format_question_text text = replace [nl] (lit "<br>") text).
  { unfold format_question_text, re_sub_st, re_sub, re_sub_st.
    rewrite (sub_go_untouched re_fence)
      by (intros c Hc b' a'; apply exec_fence_no_tick;
          now apply (plain_str_chars text)).
    rewrite (sub_go_untouched re_bold)
      by (intros c Hc b' a'; apply exec_bold_no_star;
          now apply (plain_str_chars text)).
    cbn [snd].
    rewrite (sub_go_untouched re_code)
      by (intros c Hc b' a'; apply exec_code_no_tick;
          now apply (plain_str_chars text)).
    reflexivity. }
  rewrite F. unfold html_flag, re_search.
  destruct (one_line text) eqn:O.
  - rewrite replace_one_line by exact O.
    now rewrite search_tag_none.
  - unfold replace. now rewrite search_tag_break.
Qed.

Lemma plain_text_html_flag_witness :
  html_flag (format_question_text (lit "Line 1" ++ [nl] ++ lit "Line 2"))
  = lit "HTML".
Proof.
  assert (H : plain_str (lit "Line 1" ++ [nl] ++ lit "Line 2") = true)
    by (vm_compute; reflexivity).
  assert (L : forallb (not_chr "<"%char)
                (lit "Line 1" ++ [nl] ++ lit "Line 2") = true)
    by (vm_compute; reflexivity).
  exact (plain_text_html_flag _ H L).
Defined.
